(** * pipdeptree: the Mermaid renderer ([src/pipdeptree/_render/mermaid.py])

    A shallow embedding of [render_mermaid] and of its local helper
    [mermaid_id], followed by the properties of the renderer.

    Modelling choices.
    - Python [str] is [string]: a sequence of bytes (the UTF-8 encoding of the
      text).  Comparing UTF-8 byte sequences lexicographically is the same as
      comparing code points, which is what Python's [sorted] does on [str].
    - [node_ids_map : dict[str, str]] is a [gmap string string];
      [nodes], [edges : set[str]] are [gset string]; the frozenset
      [_RESERVED_IDS] is a [gset string].
    - [render_mermaid] mutates three local objects; they are threaded through
      the model as an explicit [Store].
    - The [while True] loop of [mermaid_id] is modelled with fuel; running out
      of fuel is the only way for the model to return [None], and
      [mermaid_id_total] shows that the fuel handed to the loop always
      suffices.
    - The classes [DistPackage], [ReqPackage], [PackageDAG] and
      [ReversedPackageDAG] live in [pipdeptree._models], outside this file;
      they are records holding exactly the attributes the renderer reads. *)

From stdpp Require Import gmap strings list fin_maps sorting pretty.
From Stdlib Require Import Ascii.

(** ** Characters that cannot be written inside a string literal *)

Definition dquote : string := String "034"%char EmptyString.
Definition newline : string := String "010"%char EmptyString.
Definition backslash : string := String "092"%char EmptyString.

(** The two characters [\\n] of the Python source: a backslash and an [n]. *)
Definition escaped_newline : string := backslash +:+ "n".

(** ** Data model (attributes read from [pipdeptree._models]) *)

(** A requirement of a package.  [version_spec] is [None] or a string;
    [installed_version] and [is_missing] are read in reverse mode only. *)
Record ReqPackage := {
  req_key : string;
  req_project_name : string;
  req_version_spec : option string;
  req_installed_version : string;
  req_is_missing : bool
}.

(** An installed distribution.  [dist_req] is the [.req] attribute, read in
    reverse mode only. *)
Record DistPackage := {
  dist_key : string;
  dist_project_name : string;
  dist_version : string;
  dist_req : ReqPackage
}.

(** [tree.items()] in the order in which the mapping yields its entries. *)
Inductive PackageDAG :=
  | ForwardDAG (items : list (DistPackage * list ReqPackage))
  | ReversedPackageDAG (items : list (ReqPackage * list DistPackage)).

(** ** The reserved identifiers *)

Definition _RESERVED_IDS : gset string :=
  list_to_set [
    "C4Component"; "C4Container"; "C4Deployment"; "C4Dynamic";
    "_blank"; "_parent"; "_self"; "_top";
    "call"; "class"; "classDef"; "click"; "end";
    "flowchart"; "flowchart-v2"; "graph"; "interpolate"; "linkStyle";
    "style"; "subgraph" ].

(** ** [mermaid_id] *)

(** The f-string [f"{key}_{number}"]. *)
Definition suffixed (key : string) (number : nat) : string :=
  key +:+ "_" +:+ pretty number.

(** The [while True] loop: [new_id not in node_ids_map] tests the keys of the
    dictionary. *)
Fixpoint mermaid_id_loop (fuel : nat) (key : string)
    (node_ids_map : gmap string string) (number : nat) : option string :=
  match fuel with
  | O => None
  | S fuel' =>
      let new_id := suffixed key number in
      match node_ids_map !! new_id with
      | None => Some new_id
      | Some _ => mermaid_id_loop fuel' key node_ids_map (S number)
      end
  end.

(** [mermaid_id key], as a function of the dictionary before the call, giving
    the identifier returned and the dictionary after the call. *)
Definition mermaid_id (key : string) (node_ids_map : gmap string string)
    : option (string * gmap string string) :=
  match node_ids_map !! key with
  | Some canonical_id => Some (canonical_id, node_ids_map)
  | None =>
      if decide (key ∉ _RESERVED_IDS) then
        Some (key, <[key := key]> node_ids_map)
      else
        match mermaid_id_loop (S (size node_ids_map)) key node_ids_map 0 with
        | Some new_id => Some (new_id, <[key := new_id]> node_ids_map)
        | None => None
        end
  end.

(** ** The state of one call of [render_mermaid] *)

Record Store := {
  node_ids_map : gmap string string;
  nodes : gset string;
  edges : gset string
}.

(** Every call starts from fresh, empty objects. *)
Definition initial_store : Store :=
  {| node_ids_map := ∅; nodes := ∅; edges := ∅ |}.

(** Computations over the store that may run out of fuel. *)
Definition M (A : Type) : Type := Store → option (A * Store).

Global Instance M_ret : MRet M := λ A x σ, Some (x, σ).
Global Instance M_bind : MBind M := λ A B f c σ,
  match c σ with
  | Some (x, σ') => f x σ'
  | None => None
  end.

Definition call_mermaid_id (key : string) : M string := λ σ,
  match mermaid_id key (node_ids_map σ) with
  | Some (id, m) =>
      Some (id, {| node_ids_map := m; nodes := nodes σ; edges := edges σ |})
  | None => None
  end.

(** [nodes.add(text)] and [edges.add(text)]. *)
Definition nodes_add (text : string) : M unit := λ σ,
  Some (tt, {| node_ids_map := node_ids_map σ;
               nodes := {[ text ]} ∪ nodes σ; edges := edges σ |}).
Definition edges_add (text : string) : M unit := λ σ,
  Some (tt, {| node_ids_map := node_ids_map σ;
               nodes := nodes σ; edges := {[ text ]} ∪ edges σ |}).

(** A [for] loop over a sequence. *)
Fixpoint for_each {A : Type} (xs : list A) (body : A → M unit) : M unit :=
  match xs with
  | [] => mret tt
  | x :: xs' => body x ≫= λ _, for_each xs' body
  end.

(** ** The declarations *)

(** [f'{id}["{label}"]'] *)
Definition node_decl (id label : string) : string :=
  id +:+ "[" +:+ dquote +:+ label +:+ dquote +:+ "]".

(** [f'{id}["{label}"]:::missing'] *)
Definition missing_node_decl (id label : string) : string :=
  id +:+ "[" +:+ dquote +:+ label +:+ dquote +:+ "]:::missing".

(** [f'{source} -- "{label}" --> {target}'] *)
Definition solid_edge (source label target : string) : string :=
  source +:+ " -- " +:+ dquote +:+ label +:+ dquote +:+ " --> " +:+ target.

(** [f"{source} -.-> {target}"] *)
Definition dashed_edge (source target : string) : string :=
  source +:+ " -.-> " +:+ target.

(** [version_spec or "any"]: [None] and the empty string are both falsy. *)
Definition or_any (version_spec : option string) : string :=
  match version_spec with
  | None => "any"
  | Some s => if decide (s = EmptyString) then "any" else s
  end.

(** ** The two collecting loops of [render_mermaid] *)

(** Body of the inner loop, reverse mode (lines 79-81). *)
Definition reverse_dependency_step (package_key : string)
    (reverse_dependency : DistPackage) : M unit :=
  let edge_label := or_any (req_version_spec (dist_req reverse_dependency)) in
  reverse_dependency_key ← call_mermaid_id (dist_key reverse_dependency);
  edges_add (solid_edge package_key edge_label reverse_dependency_key).

(** Body of the outer loop, reverse mode (lines 73-81). *)
Definition reverse_entry_step
    (entry : ReqPackage * list DistPackage) : M unit :=
  let '(package, reverse_dependencies) := entry in
  let package_label :=
    req_project_name package +:+ escaped_newline +:+
    (if req_is_missing package then "(missing)"
     else req_installed_version package) in
  package_key ← call_mermaid_id (req_key package);
  _ ← nodes_add (node_decl package_key package_label);
  for_each reverse_dependencies (reverse_dependency_step package_key).

(** Body of the inner loop, forward mode (lines 88-95). *)
Definition dependency_step (package_key : string)
    (dependency : ReqPackage) : M unit :=
  let edge_label := or_any (req_version_spec dependency) in
  dependency_key ← call_mermaid_id (req_key dependency);
  if req_is_missing dependency then
    let dependency_label :=
      req_project_name dependency +:+ escaped_newline +:+ "(missing)" in
    _ ← nodes_add (missing_node_decl dependency_key dependency_label);
    edges_add (dashed_edge package_key dependency_key)
  else
    edges_add (solid_edge package_key edge_label dependency_key).

(** Body of the outer loop, forward mode (lines 84-95). *)
Definition entry_step (entry : DistPackage * list ReqPackage) : M unit :=
  let '(package, dependencies) := entry in
  let package_label :=
    dist_project_name package +:+ escaped_newline +:+ dist_version package in
  package_key ← call_mermaid_id (dist_key package);
  _ ← nodes_add (node_decl package_key package_label);
  for_each dependencies (dependency_step package_key).

(** Lines 71-95: the store once the graph has been walked. *)
Definition collect (tree : PackageDAG) : option Store :=
  match tree with
  | ReversedPackageDAG items =>
      snd <$> for_each items reverse_entry_step initial_store
  | ForwardDAG items =>
      snd <$> for_each items entry_step initial_store
  end.

(** ** The emitter (lines 97-111) *)

Definition indent : string := "    ".

(** What [dedent] returns on the two-line template: the common margin of
    eight spaces is removed and the last, blank line becomes empty. *)
Definition header : string :=
  "flowchart TD" +:+ newline +:+
  indent +:+ "classDef missing stroke-dasharray: 5" +:+ newline.

(** [sorted] on strings: ascending in the lexicographic order of [str]. *)
Definition sorted (l : list string) : list string := merge_sort String.le l.

(** Lines 106-110, given the order in which the two sets are iterated. *)
Definition emit (node_list edge_list : list string) : string :=
  let output := header in
  let output := output +:+ indent in
  let output :=
    output +:+ String.concat (newline +:+ indent) (sorted node_list) in
  let output := output +:+ newline +:+ indent in
  let output :=
    output +:+ String.concat (newline +:+ indent) (sorted edge_list) in
  output +:+ newline.

(** [render_mermaid], for a given iteration order of Python sets: [iter s]
    lists the elements of [s] in the order in which a [set] yields them. *)
Definition render_mermaid_iter (iter : gset string → list string)
    (tree : PackageDAG) : option string :=
  σ ← collect tree;
  Some (emit (iter (nodes σ)) (iter (edges σ))).

Definition render_mermaid (tree : PackageDAG) : option string :=
  render_mermaid_iter elements tree.

(** * Vocabulary of the properties *)

(** ** The identifiers depend only on the sequence of keys looked up *)

(** The dictionary after looking up [keys] one after the other. *)
Fixpoint assign_all (keys : list string) (m : gmap string string)
    : option (gmap string string) :=
  match keys with
  | [] => Some m
  | key :: keys' =>
      match mermaid_id key m with
      | Some (_, m') => assign_all keys' m'
      | None => None
      end
  end.

(** The identifier a key has in a dictionary that holds it. *)
Definition id_of (m : gmap string string) (key : string) : string :=
  default key (m !! key).

(** ** The declarations of a graph, given the identifiers

    Both loops have the same shape: look up the key of the entry, add its
    node, then for each neighbour look up its key and add at most one node
    and one edge.  [pkey], [pnode] are the key and the node of an entry;
    [dkey], [dnode], [dedge] the key, the nodes and the edge of a
    neighbour. *)

Section walk_declarations.
Context {P D : Type}.
Variable pkey : P → string.
Variable pnode : P → string → string.
Variable dkey : D → string.
Variable dnode : D → string → list string.
Variable dedge : D → string → string → string.

(** The keys of one entry and of the graph, in lookup order. *)
Definition entry_keys (entry : P * list D) : list string :=
  pkey entry.1 :: (dkey <$> entry.2).
Definition walk_keys (items : list (P * list D)) : list string :=
  items ≫= entry_keys.

(** The declarations of the graph when key [k] has identifier [f k]. *)
Definition entry_nodes (f : string → string) (entry : P * list D)
    : list string :=
  pnode entry.1 (f (pkey entry.1)) :: (entry.2 ≫= λ d, dnode d (f (dkey d))).
Definition entry_edges (f : string → string) (entry : P * list D)
    : list string :=
  (λ d, dedge d (f (pkey entry.1)) (f (dkey d))) <$> entry.2.
Definition walk_nodes (f : string → string) (items : list (P * list D))
    : list string :=
  items ≫= entry_nodes f.
Definition walk_edges (f : string → string) (items : list (P * list D))
    : list string :=
  items ≫= entry_edges f.

End walk_declarations.

(** ** The declarations of each mode *)

(** Forward mode: the node of a top-level package (lines 84-86), the node of
    a dependency (lines 90-92: only a missing one has a node of its own) and
    the edge to a dependency (lines 93 and 95). *)
Definition package_node (package : DistPackage) (package_key : string)
    : string :=
  node_decl package_key
    (dist_project_name package +:+ escaped_newline +:+ dist_version package).

Definition dependency_nodes (dependency : ReqPackage)
    (dependency_key : string) : list string :=
  if req_is_missing dependency then
    [missing_node_decl dependency_key
       (req_project_name dependency +:+ escaped_newline +:+ "(missing)")]
  else [].

Definition dependency_edge (dependency : ReqPackage)
    (package_key dependency_key : string) : string :=
  if req_is_missing dependency then dashed_edge package_key dependency_key
  else
    solid_edge package_key (or_any (req_version_spec dependency))
      dependency_key.

(** Reverse mode: the node of a top-level package (lines 73-77) and the edge
    to a package that depends on it (lines 79-81); such a package gets no
    node of its own. *)
Definition reverse_package_node (package : ReqPackage) (package_key : string)
    : string :=
  node_decl package_key
    (req_project_name package +:+ escaped_newline +:+
     (if req_is_missing package then "(missing)"
      else req_installed_version package)).

Definition reverse_dependency_edge (reverse_dependency : DistPackage)
    (package_key reverse_dependency_key : string) : string :=
  solid_edge package_key
    (or_any (req_version_spec (dist_req reverse_dependency)))
    reverse_dependency_key.

(** The keys looked up during a render, in lookup order, and the
    declarations of the graph when key [k] has identifier [f k]. *)
Definition tree_keys (tree : PackageDAG) : list string :=
  match tree with
  | ForwardDAG items => walk_keys dist_key req_key items
  | ReversedPackageDAG items => walk_keys req_key dist_key items
  end.

Definition tree_nodes (f : string → string) (tree : PackageDAG)
    : list string :=
  match tree with
  | ForwardDAG items =>
      walk_nodes dist_key package_node req_key dependency_nodes f items
  | ReversedPackageDAG items =>
      walk_nodes req_key reverse_package_node dist_key (λ _ _, []) f items
  end.

Definition tree_edges (f : string → string) (tree : PackageDAG)
    : list string :=
  match tree with
  | ForwardDAG items => walk_edges dist_key req_key dependency_edge f items
  | ReversedPackageDAG items =>
      walk_edges req_key dist_key reverse_dependency_edge f items
  end.

(** ** The shape of the emitted text *)

(** One declaration on a line of its own. *)
Definition line (decl : string) : string := indent +:+ decl +:+ newline.

Fixpoint lines (decls : list string) : string :=
  match decls with
  | [] => EmptyString
  | decl :: decls' => line decl +:+ lines decls'
  end.

(** The text emitted for one of the two sets: its declarations, one per
    line; for an empty set, a line holding the indentation alone. *)
Definition block (decls : list string) : string :=
  match decls with
  | [] => line EmptyString
  | _ => lines decls
  end.

(** [decl] stands on a line of its own, after the indentation. *)
Definition output_line (output decl : string) : Prop :=
  ∃ before after, output = (before +:+ newline) +:+ line decl +:+ after.

(** The text ends a line. *)
Definition ends_with_newline (s : string) : Prop := ∃ b, s = b +:+ newline.

(** No identifier held by the dictionary is a reserved word. *)
Definition no_reserved_value (m : gmap string string) : Prop :=
  ∀ key id, m !! key = Some id → id ∉ _RESERVED_IDS.

(** Every identifier held by the dictionary is the key itself, for a key
    that is not reserved, and the key with a numeric suffix, for a reserved
    key. *)
Definition well_shaped (m : gmap string string) : Prop :=
  ∀ key id, m !! key = Some id →
    ((key ∉ _RESERVED_IDS) ∧ id = key) ∨
    ((key ∈ _RESERVED_IDS) ∧ ∃ number, id = suffixed key number).

(** The string holds no double quote. *)
Definition quote_free (s : string) : Prop :=
  ∀ s1 s2, s ≠ s1 +:+ String "034"%char s2.

(** ** Graphs that are rendered alike in any iteration order *)

(** The identifier of a key when no other key stands in its way. *)
Definition canonical_id (key : string) : string :=
  if decide (key ∈ _RESERVED_IDS) then suffixed key 0 else key.

(** No key of the graph is a reserved key of the graph followed by [_0]. *)
Definition no_suffix_clash (tree : PackageDAG) : Prop :=
  Forall (λ key, key ∈ _RESERVED_IDS → suffixed key 0 ∉ tree_keys tree)
    (tree_keys tree).

(** The same mode and the same entries, in any order. *)
Definition same_entries (tree1 tree2 : PackageDAG) : Prop :=
  match tree1, tree2 with
  | ForwardDAG items1, ForwardDAG items2 => items1 ≡ₚ items2
  | ReversedPackageDAG items1, ReversedPackageDAG items2 => items1 ≡ₚ items2
  | _, _ => False
  end.

(** The same mode and the same entries in the same order, the neighbours of
    each entry in any order. *)
Definition same_neighbors (tree1 tree2 : PackageDAG) : Prop :=
  match tree1, tree2 with
  | ForwardDAG items1, ForwardDAG items2 =>
      Forall2 (λ entry1 entry2,
                 entry1.1 = entry2.1 ∧ entry1.2 ≡ₚ entry2.2) items1 items2
  | ReversedPackageDAG items1, ReversedPackageDAG items2 =>
      Forall2 (λ entry1 entry2,
                 entry1.1 = entry2.1 ∧ entry1.2 ≡ₚ entry2.2) items1 items2
  | _, _ => False
  end.

(** ** Example graphs *)

(** An installed distribution; its [req] attribute carries no constraint. *)
Definition mkdist (key name version : string) : DistPackage :=
  {| dist_key := key; dist_project_name := name; dist_version := version;
     dist_req := {| req_key := key; req_project_name := name;
                    req_version_spec := None;
                    req_installed_version := version;
                    req_is_missing := false |} |}.

Definition mkreq (key name : string) (version_spec : option string)
    (installed_version : string) (is_missing : bool) : ReqPackage :=
  {| req_key := key; req_project_name := name;
     req_version_spec := version_spec;
     req_installed_version := installed_version;
     req_is_missing := is_missing |}.

(** Two packages, [class] and [class_0], neither with dependencies, in the
    two possible iteration orders. *)
Definition class_first : list (DistPackage * list ReqPackage) :=
  [ (mkdist "class" "class" "1.0", []);
    (mkdist "class_0" "class_0" "2.0", []) ].
Definition class_last : list (DistPackage * list ReqPackage) :=
  [ (mkdist "class_0" "class_0" "2.0", []);
    (mkdist "class" "class" "1.0", []) ].

(** Package [a] depends on [b], which is installed, without constraint, and
    on [c], which is missing, with a constraint; [b] has no dependencies. *)
Definition sample_forward : list (DistPackage * list ReqPackage) :=
  [ (mkdist "a" "A" "1.0",
      [ mkreq "b" "B" None "2.0" false;
        mkreq "c" "C" (Some ">=1.0") "?" true ]);
    (mkdist "b" "B" "2.0", []) ].

(** Package [a] depends, without constraint, on [b], which is installed but
    is not an entry of the graph. *)
Definition neighbor_only : list (DistPackage * list ReqPackage) :=
  [ (mkdist "a" "A" "1.0", [ mkreq "b" "B" None "2.0" false ]) ].

(** Package [a] depends, without constraint, on [b], which is missing. *)
Definition missing_unconstrained : list (DistPackage * list ReqPackage) :=
  [ (mkdist "a" "A" "1.0", [ mkreq "b" "B" None "?" true ]) ].

(** Package [A], version [1.0], depends on the installed package [B],
    version [2.0], without constraint. *)
Definition a_needs_b : list (DistPackage * list ReqPackage) :=
  [ (mkdist "A" "A" "1.0", [ mkreq "B" "B" None "2.0" false ]);
    (mkdist "B" "B" "2.0", []) ].

(** Reverse mode: [x] is missing and is required by [y] (with an empty
    specifier) and by [z] (with [>=1.0]). *)
Definition sample_reverse : list (ReqPackage * list DistPackage) :=
  [ (mkreq "x" "X" None "?" true,
      [ {| dist_key := "y"; dist_project_name := "Y"; dist_version := "3.0";
           dist_req := mkreq "x" "X" (Some EmptyString) "?" true |};
        {| dist_key := "z"; dist_project_name := "Z"; dist_version := "4.0";
           dist_req := mkreq "x" "X" (Some ">=1.0") "?" true |} ]) ].

(** Two packages whose keys are reserved words, in two iteration orders. *)
Definition reserved_sample : list (DistPackage * list ReqPackage) :=
  [ (mkdist "class" "class" "1.0", [ mkreq "end" "end" None "2.0" false ]);
    (mkdist "end" "end" "2.0", []) ].
Definition reserved_sample_swapped : list (DistPackage * list ReqPackage) :=
  [ (mkdist "end" "end" "2.0", []);
    (mkdist "class" "class" "1.0", [ mkreq "end" "end" None "2.0" false ]) ].

(** [reserved_sample] with a second dependency of [class], and the same
    graph with the two dependencies in the other order. *)
Definition two_neighbors : list (DistPackage * list ReqPackage) :=
  [ (mkdist "class" "class" "1.0",
      [ mkreq "end" "end" None "2.0" false;
        mkreq "gone" "gone" (Some "<3") "?" true ]);
    (mkdist "end" "end" "2.0", []) ].
Definition two_neighbors_swapped : list (DistPackage * list ReqPackage) :=
  [ (mkdist "class" "class" "1.0",
      [ mkreq "gone" "gone" (Some "<3") "?" true;
        mkreq "end" "end" None "2.0" false ]);
    (mkdist "end" "end" "2.0", []) ].

(** Package [p] lists the key [d] twice: flagged missing, then not. *)
Definition repeated_neighbor : list (DistPackage * list ReqPackage) :=
  [ (mkdist "p" "P" "1.0",
      [ mkreq "d" "D" (Some ">=1") "?" true;
        mkreq "d" "D" (Some ">=1") "2.0" false ]) ].

(** Package [p] depends on [class], installed and constrained, and on
    [class_0], missing. *)
Definition collided_neighbor : list (DistPackage * list ReqPackage) :=
  [ (mkdist "p" "P" "1.0",
      [ mkreq "class" "class" (Some ">=1") "3.0" false;
        mkreq "class_0" "class_0" None "?" true ]) ].

(** One package without dependencies. *)
Definition single_package : list (DistPackage * list ReqPackage) :=
  [ (mkdist "a" "A" "1.0", []) ].

(** * Properties *)

(** ** The loop of [mermaid_id] terminates *)

Global Instance suffixed_inj key : Inj (=) (=) (suffixed key).
Proof.
  intros i j Hij. unfold suffixed in Hij.
  apply (inj (String.app key)) in Hij.
  apply (inj (String.app "_")) in Hij.
  by apply (inj pretty) in Hij.
Qed.

Lemma mermaid_id_loop_None fuel key (m : gmap string string) n :
  mermaid_id_loop fuel key m n = None →
  ∀ i, n ≤ i < n + fuel → is_Some (m !! suffixed key i).
Proof.
  revert n. induction fuel as [|fuel IH]; intros n Hloop i Hi; [lia|].
  simpl in Hloop. destruct (m !! suffixed key n) eqn:Hn; [|done].
  destruct (decide (i = n)) as [->|Hne]; [by eexists|].
  apply (IH (S n)); [done|lia].
Qed.

Lemma mermaid_id_loop_Some fuel key (m : gmap string string) n new_id :
  mermaid_id_loop fuel key m n = Some new_id →
  ∃ number, new_id = suffixed key number ∧ m !! new_id = None ∧ n ≤ number ∧
    ∀ i, n ≤ i < number → is_Some (m !! suffixed key i).
Proof.
  revert n. induction fuel as [|fuel IH]; intros n Hloop; [done|].
  simpl in Hloop. destruct (m !! suffixed key n) eqn:Hn.
  - destruct (IH _ Hloop) as (number & -> & Hfree & Hle & Hbusy).
    exists number. split_and!; [done|done|lia|].
    intros i Hi. destruct (decide (i = n)) as [->|Hne]; [by eexists|].
    apply Hbusy. lia.
  - injection Hloop as <-. exists n. split_and!; [done|done|lia|]. lia.
Qed.

(** Pigeonhole: the candidates [key_0 .. key_(size m)] are pairwise distinct,
    so they cannot all be keys of [m]. *)
Lemma mermaid_id_loop_total key (m : gmap string string) :
  is_Some (mermaid_id_loop (S (size m)) key m 0).
Proof.
  destruct (mermaid_id_loop (S (size m)) key m 0) eqn:Hloop; [by eexists|].
  exfalso.
  set (candidates := suffixed key <$> seq 0 (S (size m))).
  assert (candidates ⊆+ elements (dom m)) as Hsub.
  { apply NoDup_submseteq.
    - apply (NoDup_fmap_2 _), NoDup_seq.
    - intros x (i & -> & Hi%elem_of_seq)%list_elem_of_fmap.
      apply elem_of_elements, elem_of_dom.
      apply (mermaid_id_loop_None _ _ _ _ Hloop). lia. }
  apply submseteq_length in Hsub.
  unfold candidates in Hsub. rewrite length_fmap, length_seq in Hsub.
  change (length (elements (dom m))) with (size (dom m)) in Hsub.
  rewrite size_dom in Hsub. lia.
Qed.

Lemma mermaid_id_total key (m : gmap string string) :
  ∃ id m', mermaid_id key m = Some (id, m').
Proof.
  unfold mermaid_id. destruct (m !! key); [by eauto|].
  case_decide; [by eauto|].
  destruct (mermaid_id_loop_total key m) as [new_id ->]. by eauto.
Qed.

(** What one call does to the dictionary. *)
Lemma mermaid_id_inv key (m : gmap string string) id m' :
  mermaid_id key m = Some (id, m') →
  (m !! key = Some id ∧ m' = m) ∨
  (m !! key = None ∧ m' = <[key := id]> m ∧
     (((key ∉ _RESERVED_IDS) ∧ id = key) ∨
      ((key ∈ _RESERVED_IDS) ∧
       ∃ number, id = suffixed key number ∧ m !! id = None ∧
         ∀ i, i < number → is_Some (m !! suffixed key i)))).
Proof.
  unfold mermaid_id. destruct (m !! key) eqn:Hkey.
  { intros [= <- <-]. by left. }
  case_decide as Hres.
  { intros [= <- <-]. right. split_and!; [done..|]. by left. }
  destruct (mermaid_id_loop _ _ _ _) as [new_id|] eqn:Hloop; [|done].
  intros [= <- <-]. right. split_and!; [done..|]. right.
  split; [done|].
  apply mermaid_id_loop_Some in Hloop as (number & -> & ? & _ & Hbusy).
  eexists. split_and!; [done..|]. intros i Hi. apply Hbusy. lia.
Qed.

Lemma mermaid_id_lookup key (m : gmap string string) id m' :
  mermaid_id key m = Some (id, m') → m' !! key = Some id.
Proof.
  intros [[? ->]|(_ & -> & _)]%mermaid_id_inv; [done|].
  apply lookup_insert_eq.
Qed.

Lemma mermaid_id_subseteq key (m : gmap string string) id m' :
  mermaid_id key m = Some (id, m') → m ⊆ m'.
Proof.
  intros [[_ ->]|(Hkey & -> & _)]%mermaid_id_inv; [done|].
  apply insert_subseteq, Hkey.
Qed.

Lemma mermaid_id_dom key (m : gmap string string) id m' :
  mermaid_id key m = Some (id, m') → dom m' = {[ key ]} ∪ dom m.
Proof.
  intros [[Hkey ->]|(? & -> & _)]%mermaid_id_inv.
  - apply elem_of_dom_2, singleton_subseteq_l in Hkey.
    by rewrite (subseteq_union_1_L _ _ Hkey).
  - apply dom_insert_L.
Qed.

(** ** The identifiers depend only on the sequence of keys looked up *)

Lemma assign_all_app keys1 keys2 (m : gmap string string) :
  assign_all (keys1 ++ keys2) m = assign_all keys1 m ≫= assign_all keys2.
Proof.
  revert m. induction keys1 as [|key keys1 IH]; intros m; simpl; [done|].
  destruct (mermaid_id key m) as [[id m']|]; [apply IH|done].
Qed.

Lemma assign_all_total keys (m : gmap string string) :
  is_Some (assign_all keys m).
Proof.
  revert m. induction keys as [|key keys IH]; intros m; simpl; [by eexists|].
  destruct (mermaid_id_total key m) as (id & m' & ->). apply IH.
Qed.

Lemma assign_all_subseteq keys (m m' : gmap string string) :
  assign_all keys m = Some m' → m ⊆ m'.
Proof.
  revert m. induction keys as [|key keys IH]; intros m; simpl.
  { by intros [= ->]. }
  destruct (mermaid_id key m) as [[id m1]|] eqn:Hid; [|done].
  intros Hrest. etrans; [by eapply mermaid_id_subseteq|by apply IH].
Qed.

Lemma assign_all_dom keys (m m' : gmap string string) :
  assign_all keys m = Some m' → dom m' = list_to_set keys ∪ dom m.
Proof.
  revert m. induction keys as [|key keys IH]; intros m; simpl.
  { intros [= ->]. by rewrite (left_id_L ∅ (∪)). }
  destruct (mermaid_id key m) as [[id m1]|] eqn:Hid; [|done].
  intros Hrest. rewrite (IH _ Hrest), (mermaid_id_dom _ _ _ _ Hid).
  rewrite (assoc_L (∪)). f_equal. apply (comm_L (∪)).
Qed.

Lemma id_of_weaken (m m' : gmap string string) key :
  m ⊆ m' → key ∈ dom m → id_of m' key = id_of m key.
Proof.
  intros Hsub [id Hid]%elem_of_dom. unfold id_of.
  by rewrite Hid, (lookup_weaken _ _ _ _ Hid Hsub).
Qed.

Lemma id_of_lookup (m : gmap string string) key :
  key ∈ dom m → m !! key = Some (id_of m key).
Proof. intros [id Hid]%elem_of_dom. unfold id_of. by rewrite Hid. Qed.

(** Equations between unions of sets, up to associativity and
    commutativity. *)
Ltac union_ac :=
  apply set_eq; intros ?; rewrite ?elem_of_union; tauto.

(** ** What the two collecting loops compute

    The section describes the store a walk ends in, from the effect of the
    two loop bodies on the store; it is instantiated once per mode below. *)

Section walk.
Context {P D : Type}.
Variable pkey : P → string.
Variable pnode : P → string → string.
Variable dkey : D → string.
Variable dnode : D → string → list string.
Variable dedge : D → string → string → string.
(** The loop bodies, described by their effect on the store. *)
Variable inner : string → D → M unit.
Variable outer : P * list D → M unit.
Hypothesis inner_effect : ∀ package_key d σ id m',
  mermaid_id (dkey d) (node_ids_map σ) = Some (id, m') →
  inner package_key d σ =
    Some (tt, {| node_ids_map := m';
                 nodes := list_to_set (dnode d id) ∪ nodes σ;
                 edges := {[ dedge d package_key id ]} ∪ edges σ |}).
Hypothesis outer_effect : ∀ p ds σ id m',
  mermaid_id (pkey p) (node_ids_map σ) = Some (id, m') →
  outer (p, ds) σ =
    for_each ds (inner id)
      {| node_ids_map := m';
         nodes := {[ pnode p id ]} ∪ nodes σ;
         edges := edges σ |}.

Lemma inner_loop package_key ds σ :
  ∃ σ', for_each ds (inner package_key) σ = Some (tt, σ') ∧
    assign_all (dkey <$> ds) (node_ids_map σ) = Some (node_ids_map σ') ∧
    nodes σ' =
      list_to_set (ds ≫= λ d, dnode d (id_of (node_ids_map σ') (dkey d)))
      ∪ nodes σ ∧
    edges σ' =
      list_to_set
        ((λ d, dedge d package_key (id_of (node_ids_map σ') (dkey d)))
           <$> ds)
      ∪ edges σ.
Proof.
  revert σ. induction ds as [|d ds IH]; intros σ.
  { exists σ. simpl. split_and!; [done..| |]; by rewrite (left_id_L ∅ (∪)). }
  destruct (mermaid_id_total (dkey d) (node_ids_map σ)) as (id & m1 & Hid).
  pose proof (inner_effect package_key d σ id m1 Hid) as Hstep.
  destruct (IH {| node_ids_map := m1;
                  nodes := list_to_set (dnode d id) ∪ nodes σ;
                  edges := {[ dedge d package_key id ]} ∪ edges σ |})
    as (σ' & Hrun & Hkeys & Hnodes & Hedges).
  simpl in Hkeys, Hnodes, Hedges.
  exists σ'.
  assert (id_of (node_ids_map σ') (dkey d) = id) as Hfinal.
  { unfold id_of. apply assign_all_subseteq in Hkeys.
    apply mermaid_id_lookup in Hid.
    by rewrite (lookup_weaken _ _ _ _ Hid Hkeys). }
  split_and!.
  - simpl. unfold mbind, M_bind. by rewrite Hstep.
  - simpl. by rewrite Hid.
  - rewrite Hnodes, bind_cons, list_to_set_app_L, Hfinal. union_ac.
  - rewrite Hedges, fmap_cons, list_to_set_cons, Hfinal. union_ac.
Qed.

Lemma entry_nodes_ext f g entry :
  (∀ key, key ∈ entry_keys pkey dkey entry → f key = g key) →
  entry_nodes pkey pnode dkey dnode f entry
  = entry_nodes pkey pnode dkey dnode g entry.
Proof.
  intros Hfg. unfold entry_nodes, entry_keys in *. f_equal.
  - f_equal. apply Hfg, list_elem_of_here.
  - apply Forall_bind_ext, Forall_forall. intros d Hd. f_equal.
    apply Hfg, list_elem_of_further, list_elem_of_fmap. by exists d.
Qed.

Lemma entry_edges_ext f g entry :
  (∀ key, key ∈ entry_keys pkey dkey entry → f key = g key) →
  entry_edges pkey dkey dedge f entry = entry_edges pkey dkey dedge g entry.
Proof.
  intros Hfg. unfold entry_edges, entry_keys in *.
  apply Forall_fmap_ext, Forall_forall. intros d Hd. f_equal.
  - apply Hfg, list_elem_of_here.
  - apply Hfg, list_elem_of_further, list_elem_of_fmap. by exists d.
Qed.

Lemma walk_nodes_ext f g items :
  (∀ key, key ∈ walk_keys pkey dkey items → f key = g key) →
  walk_nodes pkey pnode dkey dnode f items
  = walk_nodes pkey pnode dkey dnode g items.
Proof.
  intros Hfg. apply Forall_bind_ext, Forall_forall. intros entry Hentry.
  apply entry_nodes_ext. intros key Hkey. apply Hfg.
  apply list_elem_of_bind. by exists entry.
Qed.

Lemma walk_edges_ext f g items :
  (∀ key, key ∈ walk_keys pkey dkey items → f key = g key) →
  walk_edges pkey dkey dedge f items = walk_edges pkey dkey dedge g items.
Proof.
  intros Hfg. apply Forall_bind_ext, Forall_forall. intros entry Hentry.
  apply entry_edges_ext. intros key Hkey. apply Hfg.
  apply list_elem_of_bind. by exists entry.
Qed.

Lemma outer_loop items σ :
  ∃ σ', for_each items outer σ = Some (tt, σ') ∧
    assign_all (walk_keys pkey dkey items) (node_ids_map σ)
      = Some (node_ids_map σ') ∧
    nodes σ' =
      list_to_set
        (walk_nodes pkey pnode dkey dnode (id_of (node_ids_map σ')) items)
      ∪ nodes σ ∧
    edges σ' =
      list_to_set (walk_edges pkey dkey dedge (id_of (node_ids_map σ')) items)
      ∪ edges σ.
Proof.
  revert σ. induction items as [|[p ds] items IH]; intros σ.
  { exists σ. simpl. split_and!; [done..| |]; by rewrite (left_id_L ∅ (∪)). }
  destruct (mermaid_id_total (pkey p) (node_ids_map σ)) as (id & m1 & Hid).
  pose proof (outer_effect p ds σ id m1 Hid) as Hstep.
  destruct (inner_loop id ds
              {| node_ids_map := m1;
                 nodes := {[ pnode p id ]} ∪ nodes σ;
                 edges := edges σ |})
    as (σ1 & Hrun1 & Hkeys1 & Hnodes1 & Hedges1).
  simpl in Hkeys1, Hnodes1, Hedges1.
  destruct (IH σ1) as (σ' & Hrun & Hkeys & Hnodes & Hedges).
  exists σ'.
  pose proof (assign_all_subseteq _ _ _ Hkeys1) as Hsub1.
  pose proof (assign_all_subseteq _ _ _ Hkeys) as Hsub.
  pose proof (assign_all_dom _ _ _ Hkeys1) as Hdom1.
  assert (∀ key, key ∈ entry_keys pkey dkey (p, ds) →
            id_of (node_ids_map σ') key = id_of (node_ids_map σ1) key)
    as Hstable.
  { intros key Hkey. apply id_of_weaken; [done|].
    rewrite Hdom1, (mermaid_id_dom _ _ _ _ Hid).
    apply elem_of_cons in Hkey as [->|Hkey].
    - apply elem_of_union_r, elem_of_union_l. by apply elem_of_singleton.
    - apply elem_of_union_l. by apply elem_of_list_to_set. }
  assert (id_of (node_ids_map σ1) (pkey p) = id) as Hfinal.
  { unfold id_of. apply mermaid_id_lookup in Hid.
    by rewrite (lookup_weaken _ _ _ _ Hid Hsub1). }
  split_and!.
  - simpl. unfold mbind, M_bind. by rewrite Hstep, Hrun1.
  - unfold walk_keys. rewrite bind_cons, assign_all_app.
    change (entry_keys pkey dkey (p, ds)) with (pkey p :: (dkey <$> ds)).
    simpl. by rewrite Hid, Hkeys1.
  - unfold walk_nodes. rewrite bind_cons, list_to_set_app_L.
    fold (walk_nodes pkey pnode dkey dnode (id_of (node_ids_map σ')) items).
    rewrite Hnodes, Hnodes1, (entry_nodes_ext _ _ _ Hstable).
    unfold entry_nodes. rewrite list_to_set_cons. cbn [fst snd].
    rewrite Hfinal. union_ac.
  - unfold walk_edges. rewrite bind_cons, list_to_set_app_L.
    fold (walk_edges pkey dkey dedge (id_of (node_ids_map σ')) items).
    rewrite Hedges, Hedges1, (entry_edges_ext _ _ _ Hstable).
    unfold entry_edges. cbn [fst snd]. rewrite Hfinal. union_ac.
Qed.

End walk.

Lemma dependency_step_effect package_key d σ id m' :
  mermaid_id (req_key d) (node_ids_map σ) = Some (id, m') →
  dependency_step package_key d σ =
    Some (tt, {| node_ids_map := m';
                 nodes := list_to_set (dependency_nodes d id) ∪ nodes σ;
                 edges := {[ dependency_edge d package_key id ]} ∪ edges σ |}).
Proof.
  intros Hid.
  unfold dependency_step, dependency_nodes, dependency_edge, mbind, M_bind,
    call_mermaid_id.
  rewrite Hid. destruct (req_is_missing d); simpl.
  - by rewrite (right_id_L ∅ (∪)).
  - by rewrite (left_id_L ∅ (∪)).
Qed.

Lemma entry_step_effect p ds σ id m' :
  mermaid_id (dist_key p) (node_ids_map σ) = Some (id, m') →
  entry_step (p, ds) σ =
    for_each ds (dependency_step id)
      {| node_ids_map := m';
         nodes := {[ package_node p id ]} ∪ nodes σ;
         edges := edges σ |}.
Proof.
  intros Hid. unfold entry_step, mbind, M_bind, call_mermaid_id.
  by rewrite Hid.
Qed.

Lemma reverse_dependency_step_effect package_key d σ id m' :
  mermaid_id (dist_key d) (node_ids_map σ) = Some (id, m') →
  reverse_dependency_step package_key d σ =
    Some (tt, {| node_ids_map := m';
                 nodes := list_to_set [] ∪ nodes σ;
                 edges := {[ reverse_dependency_edge d package_key id ]}
                          ∪ edges σ |}).
Proof.
  intros Hid. unfold reverse_dependency_step, mbind, M_bind, call_mermaid_id.
  rewrite Hid. simpl. by rewrite (left_id_L ∅ (∪)).
Qed.

Lemma reverse_entry_step_effect p ds σ id m' :
  mermaid_id (req_key p) (node_ids_map σ) = Some (id, m') →
  reverse_entry_step (p, ds) σ =
    for_each ds (reverse_dependency_step id)
      {| node_ids_map := m';
         nodes := {[ reverse_package_node p id ]} ∪ nodes σ;
         edges := edges σ |}.
Proof.
  intros Hid. unfold reverse_entry_step, mbind, M_bind, call_mermaid_id.
  by rewrite Hid.
Qed.

(** The walk never fails; the identifiers are those of looking up the keys in
    order, starting from the empty dictionary; the two sets hold exactly the
    declarations of the graph under the final identifiers. *)
Lemma collect_spec tree :
  ∃ σ, collect tree = Some σ ∧
    assign_all (tree_keys tree) ∅ = Some (node_ids_map σ) ∧
    nodes σ = list_to_set (tree_nodes (id_of (node_ids_map σ)) tree) ∧
    edges σ = list_to_set (tree_edges (id_of (node_ids_map σ)) tree).
Proof.
  destruct tree as [items|items]; simpl.
  - destruct (outer_loop dist_key package_node req_key dependency_nodes
                dependency_edge dependency_step entry_step
                dependency_step_effect entry_step_effect items initial_store)
      as (σ & Hrun & Hkeys & Hnodes & Hedges).
    exists σ. rewrite Hrun. simpl in *.
    by rewrite (right_id_L ∅ (∪)) in Hnodes, Hedges.
  - destruct (outer_loop req_key reverse_package_node dist_key (λ _ _, [])
                reverse_dependency_edge reverse_dependency_step
                reverse_entry_step reverse_dependency_step_effect
                reverse_entry_step_effect items initial_store)
      as (σ & Hrun & Hkeys & Hnodes & Hedges).
    exists σ. rewrite Hrun. simpl in *.
    by rewrite (right_id_L ∅ (∪)) in Hnodes, Hedges.
Qed.

(** ** The shape of the emitted text *)

Lemma string_app_cons a (s1 s2 : string) :
  String a s1 +:+ s2 = String a (s1 +:+ s2).
Proof. reflexivity. Qed.

Lemma string_app_assoc (s1 s2 s3 : string) :
  (s1 +:+ s2) +:+ s3 = s1 +:+ s2 +:+ s3.
Proof.
  induction s1 as [|a s1 IH]; [done|]. by rewrite !string_app_cons, IH.
Qed.

Lemma string_app_nil_r (s : string) : s +:+ EmptyString = s.
Proof.
  induction s as [|a s IH]; [done|]. by rewrite string_app_cons, IH.
Qed.

Lemma concat_block decls rest :
  indent +:+ String.concat (newline +:+ indent) decls +:+ newline +:+ rest
  = block decls +:+ rest.
Proof.
  destruct decls as [|decl decls]; [by rewrite <-string_app_assoc|].
  unfold block. revert decl.
  induction decls as [|decl' decls IH]; intros decl.
  - cbn [String.concat lines]. unfold line.
    by rewrite !string_app_assoc.
  - change (String.concat (newline +:+ indent) (decl :: decl' :: decls))
      with (decl +:+ (newline +:+ indent) +:+
            String.concat (newline +:+ indent) (decl' :: decls)).
    change (lines (decl :: decl' :: decls))
      with (line decl +:+ lines (decl' :: decls)).
    unfold line at 1. rewrite !string_app_assoc, IH. done.
Qed.

Lemma emit_blocks node_list edge_list :
  emit node_list edge_list
  = header +:+ block (sorted node_list) +:+ block (sorted edge_list).
Proof.
  unfold emit. cbv zeta. rewrite !string_app_assoc, concat_block.
  rewrite <-(string_app_nil_r newline) at 2.
  by rewrite concat_block, string_app_nil_r.
Qed.

(** ** [sorted] *)

Lemma sorted_Permutation l : sorted l ≡ₚ l.
Proof. apply merge_sort_Permutation. Qed.

Lemma sorted_StronglySorted l : StronglySorted String.le (sorted l).
Proof. apply (StronglySorted_merge_sort _). Qed.

(** The result of sorting does not depend on the order of the input. *)
Lemma sorted_order_irrelevant l1 l2 : l1 ≡ₚ l2 → sorted l1 = sorted l2.
Proof.
  intros Hperm. apply (StronglySorted_unique String.le).
  - apply sorted_StronglySorted.
  - apply sorted_StronglySorted.
  - by rewrite !sorted_Permutation.
Qed.

Lemma elem_of_sorted decl l : decl ∈ sorted l ↔ decl ∈ l.
Proof. by rewrite sorted_Permutation. Qed.

(** ** Lines of the output *)

Lemma header_ends_with_newline : ends_with_newline header.
Proof.
  exists ("flowchart TD" +:+ newline +:+ indent +:+
          "classDef missing stroke-dasharray: 5").
  unfold header. by rewrite !string_app_assoc.
Qed.

Lemma line_ends_with_newline s decl : ends_with_newline (s +:+ line decl).
Proof.
  exists (s +:+ indent +:+ decl). unfold line. by rewrite !string_app_assoc.
Qed.

Lemma lines_ends_with_newline s decls :
  ends_with_newline s → ends_with_newline (s +:+ lines decls).
Proof.
  revert s. induction decls as [|decl decls IH]; intros s Hs.
  - by rewrite string_app_nil_r.
  - cbn [lines]. rewrite <-string_app_assoc.
    apply IH, line_ends_with_newline.
Qed.

Lemma block_ends_with_newline s decls :
  ends_with_newline s → ends_with_newline (s +:+ block decls).
Proof.
  destruct decls as [|decl decls]; intros Hs.
  - apply line_ends_with_newline.
  - by apply lines_ends_with_newline.
Qed.

Lemma lines_app decls1 decls2 :
  lines (decls1 ++ decls2) = lines decls1 +:+ lines decls2.
Proof.
  induction decls1 as [|decl decls1 IH]; [done|].
  cbn [lines app]. by rewrite IH, string_app_assoc.
Qed.

Lemma block_output_line s decls decl rest :
  ends_with_newline s → decl ∈ decls →
  output_line (s +:+ block decls +:+ rest) decl.
Proof.
  intros Hs Hdecl.
  assert (block decls = lines decls) as -> by by destruct Hdecl.
  apply list_elem_of_split in Hdecl as (decls1 & decls2 & ->).
  destruct (lines_ends_with_newline s decls1 Hs) as [before Hbefore].
  exists before, (lines decls2 +:+ rest).
  rewrite <-Hbefore, lines_app. cbn [lines].
  by rewrite !string_app_assoc.
Qed.

Lemma emit_node_line node_list edge_list decl :
  decl ∈ node_list → output_line (emit node_list edge_list) decl.
Proof.
  intros Hdecl. rewrite emit_blocks.
  apply block_output_line; [apply header_ends_with_newline|].
  by apply elem_of_sorted.
Qed.

Lemma emit_edge_line node_list edge_list decl :
  decl ∈ edge_list → output_line (emit node_list edge_list) decl.
Proof.
  intros Hdecl. rewrite emit_blocks.
  rewrite <-(string_app_nil_r (block (sorted edge_list))).
  rewrite <-string_app_assoc.
  apply block_output_line; [|by apply elem_of_sorted].
  apply block_ends_with_newline, header_ends_with_newline.
Qed.

(** ** Identifiers are never reserved words *)

Lemma prefix_app (s t : string) : String.prefix s (s +:+ t) = true.
Proof.
  induction s as [|a s IH]; [by destruct t|].
  rewrite string_app_cons. cbn [String.prefix].
  by destruct (ascii_dec a a).
Qed.

(** No reserved word extends another reserved word followed by [_]. *)
Lemma reserved_words_prefix_free key word :
  key ∈ _RESERVED_IDS → word ∈ _RESERVED_IDS →
  String.prefix (key +:+ "_") word = false.
Proof.
  unfold _RESERVED_IDS. rewrite !elem_of_list_to_set.
  match goal with |- _ ∈ ?words → _ =>
    assert (Forall (λ k, Forall (λ w, String.prefix (k +:+ "_") w = false)
                           words) words) as Hfree
      by (apply (bool_decide_unpack _); by vm_compute)
  end.
  intros Hkey Hword. rewrite Forall_forall in Hfree.
  specialize (Hfree key Hkey). rewrite Forall_forall in Hfree.
  exact (Hfree word Hword).
Qed.

Lemma suffixed_not_reserved key number :
  key ∈ _RESERVED_IDS → suffixed key number ∉ _RESERVED_IDS.
Proof.
  intros Hkey Hsuffixed.
  pose proof (reserved_words_prefix_free _ _ Hkey Hsuffixed) as Hfree.
  unfold suffixed in Hfree.
  by rewrite <-string_app_assoc, prefix_app in Hfree.
Qed.

Lemma mermaid_id_not_reserved key (m : gmap string string) id m' :
  no_reserved_value m → mermaid_id key m = Some (id, m') →
  (id ∉ _RESERVED_IDS) ∧ no_reserved_value m'.
Proof.
  intros Hm Hid.
  assert (id ∉ _RESERVED_IDS) as Hfresh.
  { apply mermaid_id_inv in Hid
      as [[Hkey _]|(_ & _ & [[Hres ->]|[Hres (number & -> & _)]])].
    - by eapply Hm.
    - done.
    - by apply suffixed_not_reserved. }
  split; [done|]. intros key' id' Hkey'.
  apply mermaid_id_inv in Hid as [[_ ->]|(_ & -> & _)]; [by eapply Hm|].
  apply lookup_insert_Some in Hkey' as [[_ <-]|[_ Hkey']]; [done|].
  by eapply Hm.
Qed.

Lemma assign_all_not_reserved keys (m m' : gmap string string) :
  no_reserved_value m → assign_all keys m = Some m' → no_reserved_value m'.
Proof.
  revert m. induction keys as [|key keys IH]; intros m Hm; simpl.
  { by intros [= <-]. }
  destruct (mermaid_id key m) as [[id m1]|] eqn:Hid;
    [|intros Hnone; discriminate Hnone].
  apply IH. by eapply mermaid_id_not_reserved.
Qed.

Lemma no_reserved_value_empty : no_reserved_value ∅.
Proof.
  intros key id Hkey. rewrite lookup_empty in Hkey. discriminate Hkey.
Qed.

(** C7.  No identifier is a reserved word.  First, in any dictionary reached
    by looking up keys from the empty one, every call of [mermaid_id]
    returns, and what it returns is not in [_RESERVED_IDS].  Second, for
    every graph the walk ends; every key looked up has an identifier at the
    end, none of them reserved; and the declarations in the two sets are
    the declarations of the graph written with these identifiers. *)
Theorem mermaid_id_never_reserved :
  (∀ keys m key, assign_all keys ∅ = Some m →
     ∃ id m', mermaid_id key m = Some (id, m') ∧ id ∉ _RESERVED_IDS) ∧
  (∀ tree, ∃ σ, collect tree = Some σ ∧
     (∀ key, key ∈ tree_keys tree →
        ∃ id, node_ids_map σ !! key = Some id ∧ id ∉ _RESERVED_IDS) ∧
     nodes σ = list_to_set (tree_nodes (id_of (node_ids_map σ)) tree) ∧
     edges σ = list_to_set (tree_edges (id_of (node_ids_map σ)) tree)).
Proof.
  split.
  - intros keys m key Hm.
    destruct (mermaid_id_total key m) as (id & m' & Hid).
    exists id, m'. split; [done|].
    apply (mermaid_id_not_reserved key m id m'); [|done].
    eapply assign_all_not_reserved; [apply no_reserved_value_empty|done].
  - intros tree.
    destruct (collect_spec tree) as (σ & Hσ & Hkeys & Hnodes & Hedges).
    exists σ. split_and!; [done| |done..].
    intros key Hkey.
    assert (key ∈ dom (node_ids_map σ)) as [id Hid]%elem_of_dom.
    { rewrite (assign_all_dom _ _ _ Hkeys).
      by apply elem_of_union_l, elem_of_list_to_set. }
    exists id. split; [done|].
    eapply assign_all_not_reserved; [apply no_reserved_value_empty|done..].
Qed.

(** ** Two keys can share an identifier *)

(** C1.  The graph [class_first] is rendered with the same identifier,
    [class_0], for its two distinct keys [class] and [class_0]: the loop of
    [mermaid_id] compares a candidate with the keys already seen, and
    nothing compares a key that is not reserved with the identifiers
    already issued. *)
Theorem mermaid_id_collision :
  ∃ σ, collect (ForwardDAG class_first) = Some σ ∧
    node_ids_map σ !! "class" = Some "class_0" ∧
    node_ids_map σ !! "class_0" = Some "class_0" ∧
    node_decl "class_0" ("class" +:+ escaped_newline +:+ "1.0") ∈ nodes σ ∧
    node_decl "class_0" ("class_0" +:+ escaped_newline +:+ "2.0") ∈ nodes σ.
Proof.
  eexists. split; [vm_compute; reflexivity|].
  split_and!; [vm_compute; reflexivity..| |];
    apply (bool_decide_unpack _); vm_compute; exact I.
Qed.


(** ** Which declarations are collected *)

Section walk_membership.
Context {P D : Type}.
Variable pkey : P → string.
Variable pnode : P → string → string.
Variable dkey : D → string.
Variable dnode : D → string → list string.
Variable dedge : D → string → string → string.

Lemma elem_of_walk_keys key items :
  key ∈ walk_keys pkey dkey items ↔
  ∃ p ds, (p, ds) ∈ items ∧ (key = pkey p ∨ ∃ d, d ∈ ds ∧ key = dkey d).
Proof.
  unfold walk_keys, entry_keys. rewrite list_elem_of_bind. split.
  - intros ([p ds] & Hkey & Hentry). exists p, ds. split; [done|].
    apply elem_of_cons in Hkey as [->|Hkey]; [by left|right].
    apply list_elem_of_fmap in Hkey as (d & -> & Hd). by exists d.
  - intros (p & ds & Hentry & Hkey). exists (p, ds). split; [|done].
    apply elem_of_cons. destruct Hkey as [->|(d & Hd & ->)]; [by left|right].
    apply list_elem_of_fmap. by exists d.
Qed.

Lemma elem_of_walk_nodes f n items :
  n ∈ walk_nodes pkey pnode dkey dnode f items ↔
  ∃ p ds, (p, ds) ∈ items ∧
    (n = pnode p (f (pkey p)) ∨ ∃ d, d ∈ ds ∧ n ∈ dnode d (f (dkey d))).
Proof.
  unfold walk_nodes, entry_nodes. rewrite list_elem_of_bind. split.
  - intros ([p ds] & Hn & Hentry). exists p, ds. split; [done|].
    apply elem_of_cons in Hn as [->|Hn]; [by left|right].
    apply list_elem_of_bind in Hn as (d & Hn & Hd). by exists d.
  - intros (p & ds & Hentry & Hn). exists (p, ds). split; [|done].
    apply elem_of_cons. destruct Hn as [->|(d & Hd & Hn)]; [by left|right].
    apply list_elem_of_bind. by exists d.
Qed.

Lemma elem_of_walk_edges f e items :
  e ∈ walk_edges pkey dkey dedge f items ↔
  ∃ p ds d, (p, ds) ∈ items ∧ d ∈ ds ∧ e = dedge d (f (pkey p)) (f (dkey d)).
Proof.
  unfold walk_edges, entry_edges. rewrite list_elem_of_bind. split.
  - intros ([p ds] & He & Hentry). exists p, ds.
    apply list_elem_of_fmap in He as (d & -> & Hd). by exists d.
  - intros (p & ds & d & Hentry & Hd & ->). exists (p, ds). split; [|done].
    apply list_elem_of_fmap. by exists d.
Qed.

End walk_membership.

(** Every key of the graph has an identifier once the walk is over. *)
Lemma collect_lookup tree σ key :
  assign_all (tree_keys tree) ∅ = Some (node_ids_map σ) →
  key ∈ tree_keys tree →
  node_ids_map σ !! key = Some (id_of (node_ids_map σ) key).
Proof.
  intros Hkeys Hkey. apply id_of_lookup.
  rewrite (assign_all_dom _ _ _ Hkeys).
  by apply elem_of_union_l, elem_of_list_to_set.
Qed.

(** Forward mode: every entry has its node, every dependency its edge and, if
    missing, its node; and the two sets hold nothing else. *)
Lemma collect_forward items :
  ∃ σ, collect (ForwardDAG items) = Some σ ∧
    (∀ p ds, (p, ds) ∈ items →
       ∃ pk, node_ids_map σ !! dist_key p = Some pk ∧
         package_node p pk ∈ nodes σ ∧
         ∀ d, d ∈ ds →
           ∃ dk, node_ids_map σ !! req_key d = Some dk ∧
             dependency_edge d pk dk ∈ edges σ ∧
             ∀ n, n ∈ dependency_nodes d dk → n ∈ nodes σ) ∧
    (∀ n, n ∈ nodes σ →
       ∃ p ds pk, (p, ds) ∈ items ∧
         node_ids_map σ !! dist_key p = Some pk ∧
         (n = package_node p pk ∨
          ∃ d dk, d ∈ ds ∧ node_ids_map σ !! req_key d = Some dk ∧
            n ∈ dependency_nodes d dk)) ∧
    (∀ e, e ∈ edges σ →
       ∃ p ds d pk dk, (p, ds) ∈ items ∧ d ∈ ds ∧
         node_ids_map σ !! dist_key p = Some pk ∧
         node_ids_map σ !! req_key d = Some dk ∧
         e = dependency_edge d pk dk).
Proof.
  destruct (collect_spec (ForwardDAG items))
    as (σ & Hσ & Hkeys & Hnodes & Hedges).
  exists σ. split; [done|].
  pose proof (λ key, collect_lookup _ _ key Hkeys) as Hlookup.
  simpl in Hnodes, Hedges, Hlookup.
  assert (∀ p ds, (p, ds) ∈ items → ∀ key,
            key = dist_key p ∨ (∃ d, d ∈ ds ∧ key = req_key d) →
            node_ids_map σ !! key = Some (id_of (node_ids_map σ) key))
    as Hfind.
  { intros p ds Hentry key Hkey. apply Hlookup, elem_of_walk_keys.
    by exists p, ds. }
  clear Hlookup.
  rewrite Hnodes, Hedges. split_and!.
  - intros p ds Hentry. eexists. split; [eapply Hfind; [done|by left]|].
    split.
    { apply elem_of_list_to_set, elem_of_walk_nodes.
      exists p, ds. split; [done|by left]. }
    intros d Hd. eexists. split; [eapply Hfind; [done|right; by eexists]|]. split.
    { apply elem_of_list_to_set, elem_of_walk_edges. by exists p, ds, d. }
    intros n Hn. apply elem_of_list_to_set, elem_of_walk_nodes.
    exists p, ds. split; [done|right]. by exists d.
  - intros n (p & ds & Hentry & Hn)%elem_of_list_to_set%elem_of_walk_nodes.
    exists p, ds. eexists. split; [done|].
    split; [eapply Hfind; [done|by left]|].
    destruct Hn as [->|(d & Hd & Hn)]; [by left|right].
    exists d. eexists. split; [done|]. split; [eapply Hfind; [done|right; by eexists]|done].
  - intros e (p & ds & d & Hentry & Hd & ->)
      %elem_of_list_to_set%elem_of_walk_edges.
    exists p, ds, d. do 2 eexists. split_and!; [done..| | |done].
    + eapply Hfind; [done|by left].
    + eapply Hfind; [done|right; by eexists].
Qed.

(** Reverse mode: every entry has its node, every package that depends on it
    its edge; and the two sets hold nothing else. *)
Lemma collect_reverse items :
  ∃ σ, collect (ReversedPackageDAG items) = Some σ ∧
    (∀ p ds, (p, ds) ∈ items →
       ∃ pk, node_ids_map σ !! req_key p = Some pk ∧
         reverse_package_node p pk ∈ nodes σ ∧
         ∀ d, d ∈ ds →
           ∃ dk, node_ids_map σ !! dist_key d = Some dk ∧
             reverse_dependency_edge d pk dk ∈ edges σ) ∧
    (∀ n, n ∈ nodes σ →
       ∃ p ds pk, (p, ds) ∈ items ∧
         node_ids_map σ !! req_key p = Some pk ∧
         n = reverse_package_node p pk) ∧
    (∀ e, e ∈ edges σ →
       ∃ p ds d pk dk, (p, ds) ∈ items ∧ d ∈ ds ∧
         node_ids_map σ !! req_key p = Some pk ∧
         node_ids_map σ !! dist_key d = Some dk ∧
         e = reverse_dependency_edge d pk dk).
Proof.
  destruct (collect_spec (ReversedPackageDAG items))
    as (σ & Hσ & Hkeys & Hnodes & Hedges).
  exists σ. split; [done|].
  pose proof (λ key, collect_lookup _ _ key Hkeys) as Hlookup.
  simpl in Hnodes, Hedges, Hlookup.
  assert (∀ p ds, (p, ds) ∈ items → ∀ key,
            key = req_key p ∨ (∃ d, d ∈ ds ∧ key = dist_key d) →
            node_ids_map σ !! key = Some (id_of (node_ids_map σ) key))
    as Hfind.
  { intros p ds Hentry key Hkey. apply Hlookup, elem_of_walk_keys.
    by exists p, ds. }
  clear Hlookup.
  rewrite Hnodes, Hedges. split_and!.
  - intros p ds Hentry. eexists. split; [eapply Hfind; [done|by left]|].
    split.
    { apply elem_of_list_to_set, elem_of_walk_nodes.
      exists p, ds. split; [done|by left]. }
    intros d Hd. eexists. split; [eapply Hfind; [done|right; by eexists]|].
    apply elem_of_list_to_set, elem_of_walk_edges. by exists p, ds, d.
  - intros n (p & ds & Hentry & Hn)%elem_of_list_to_set%elem_of_walk_nodes.
    exists p, ds. eexists. split; [done|].
    split; [eapply Hfind; [done|by left]|].
    destruct Hn as [->|(d & _ & Hn)]; [done|].
    by apply elem_of_nil in Hn.
  - intros e (p & ds & d & Hentry & Hd & ->)
      %elem_of_list_to_set%elem_of_walk_edges.
    exists p, ds, d. do 2 eexists. split_and!; [done..| | |done].
    + eapply Hfind; [done|by left].
    + eapply Hfind; [done|right; by eexists].
Qed.

(** ** The renderer as a whole *)

Lemma render_mermaid_iter_spec tree :
  ∃ σ, collect tree = Some σ ∧
    ∀ iter, render_mermaid_iter iter tree
            = Some (emit (iter (nodes σ)) (iter (edges σ))).
Proof.
  destruct (collect_spec tree) as (σ & Hσ & _).
  exists σ. split; [done|]. intros iter.
  unfold render_mermaid_iter. by rewrite Hσ.
Qed.

Lemma render_mermaid_lines tree σ :
  collect tree = Some σ →
  ∃ output, render_mermaid tree = Some output ∧
    (∀ n, n ∈ nodes σ → output_line output n) ∧
    (∀ e, e ∈ edges σ → output_line output e).
Proof.
  intros Hσ. eexists. split_and!.
  - unfold render_mermaid, render_mermaid_iter. by rewrite Hσ.
  - intros n Hn. by apply emit_node_line, elem_of_elements.
  - intros e He. by apply emit_edge_line, elem_of_elements.
Qed.

(** C8.  A call of [render_mermaid] starts from empty local objects and
    returns; its result is a function of the graph alone: whatever order the
    two sets are iterated in when they are handed to [sorted], the text is
    the same. *)
Theorem render_mermaid_deterministic
    (iter1 iter2 : gset string → list string) tree :
  (∀ s, iter1 s ≡ₚ elements s) → (∀ s, iter2 s ≡ₚ elements s) →
  ∃ output, render_mermaid_iter iter1 tree = Some output ∧
            render_mermaid_iter iter2 tree = Some output.
Proof.
  intros Hiter1 Hiter2.
  destruct (render_mermaid_iter_spec tree) as (σ & _ & Hrender).
  exists (emit (iter1 (nodes σ)) (iter1 (edges σ))).
  split; [apply Hrender|]. rewrite Hrender. unfold emit.
  by rewrite !(sorted_order_irrelevant (iter2 _) (iter1 _))
    by (by rewrite Hiter1, Hiter2).
Qed.

Lemma render_mermaid_deterministic_witness :
  (∀ s : gset string, elements s ≡ₚ elements s) ∧
  (∀ s : gset string, reverse (elements s) ≡ₚ elements s) ∧
  ∃ output,
    render_mermaid_iter elements (ForwardDAG sample_forward) = Some output ∧
    render_mermaid_iter (λ s, reverse (elements s)) (ForwardDAG sample_forward)
      = Some output.
Proof.
  split; [done|]. split; [intros s; apply reverse_Permutation|].
  apply (render_mermaid_deterministic elements (λ s, reverse (elements s))).
  - done.
  - intros s. apply reverse_Permutation.
Defined.

(** ** The structure of the output *)

(** C4, as stated, fails on a graph without edges: the text emitted for
    [single_package] is not the header followed by the lines of the node
    declarations and the lines of the edge declarations; it ends with a line
    that holds the indentation alone. *)
Lemma render_mermaid_structure_counterexample :
  ∃ σ, collect (ForwardDAG single_package) = Some σ ∧
    render_mermaid (ForwardDAG single_package)
    ≠ Some (header +:+ lines (sorted (elements (nodes σ)))
                   +:+ lines (sorted (elements (edges σ)))).
Proof.
  eexists. split; [vm_compute; reflexivity|].
  intros Hrender. vm_compute in Hrender. discriminate Hrender.
Qed.

(** C4, amended.  For every graph the output is the [flowchart TD] line, the
    [classDef] line, the block of the node declarations and the block of
    the edge declarations.  Each block lists the declarations of its set,
    each once, in ascending lexicographic order, one per line after four
    spaces; the block of an empty set is one line holding the four spaces
    alone. *)
Theorem render_mermaid_structure tree :
  ∃ σ node_list edge_list,
    collect tree = Some σ ∧
    render_mermaid tree
      = Some (("flowchart TD" +:+ newline) +:+
              line "classDef missing stroke-dasharray: 5" +:+
              block node_list +:+ block edge_list) ∧
    (StronglySorted String.le node_list ∧ NoDup node_list ∧
     ∀ decl, decl ∈ node_list ↔ decl ∈ nodes σ) ∧
    (StronglySorted String.le edge_list ∧ NoDup edge_list ∧
     ∀ decl, decl ∈ edge_list ↔ decl ∈ edges σ).
Proof.
  destruct (render_mermaid_iter_spec tree) as (σ & Hσ & Hrender).
  exists σ, (sorted (elements (nodes σ))), (sorted (elements (edges σ))).
  split_and!.
  - done.
  - unfold render_mermaid. rewrite Hrender, emit_blocks. reflexivity.
  - apply sorted_StronglySorted.
  - rewrite sorted_Permutation. apply NoDup_elements.
  - intros decl. by rewrite elem_of_sorted, elem_of_elements.
  - apply sorted_StronglySorted.
  - rewrite sorted_Permutation. apply NoDup_elements.
  - intros decl. by rewrite elem_of_sorted, elem_of_elements.
Qed.

(** ** The empty graph *)

(** C9, as stated, fails: the output for a graph without entries is not the
    header and the [classDef] line alone. *)
Lemma render_mermaid_empty_counterexample :
  render_mermaid (ForwardDAG []) ≠ Some header ∧
  render_mermaid (ReversedPackageDAG []) ≠ Some header.
Proof. split; intros Hrender; vm_compute in Hrender; discriminate Hrender. Qed.

(** C9, amended.  For a graph without entries, in either mode, no node and
    no edge declaration is collected, and the output is the header line and
    the [classDef] line followed by two lines that hold the four spaces of
    the indentation alone. *)
Theorem render_mermaid_empty :
  (collect (ForwardDAG []) = Some initial_store ∧
   render_mermaid (ForwardDAG [])
     = Some (header +:+ line EmptyString +:+ line EmptyString)) ∧
  (collect (ReversedPackageDAG []) = Some initial_store ∧
   render_mermaid (ReversedPackageDAG [])
     = Some (header +:+ line EmptyString +:+ line EmptyString)).
Proof. split; split; by vm_compute. Qed.

(** ** Which keys get a node declaration *)

(** C3, as stated, fails: in [neighbor_only] the key [b] is looked up (it
    receives the identifier [b]) as a dependency that is not missing, and no
    node declaration with that identifier is collected. *)
Lemma node_declaration_counterexample :
  ∃ σ, collect (ForwardDAG neighbor_only) = Some σ ∧
    "b" ∈ tree_keys (ForwardDAG neighbor_only) ∧
    node_ids_map σ !! "b" = Some "b" ∧
    nodes σ = {[ node_decl "a" ("A" +:+ escaped_newline +:+ "1.0") ]} ∧
    ∀ label, (node_decl "b" label ∉ nodes σ) ∧
             (missing_node_decl "b" label ∉ nodes σ).
Proof.
  assert (∃ σ, collect (ForwardDAG neighbor_only) = Some σ ∧
            node_ids_map σ !! "b" = Some "b" ∧
            nodes σ = {[ node_decl "a" ("A" +:+ escaped_newline +:+ "1.0") ]})
    as (σ & Hσ & Hb & Hnodes).
  { eexists. split_and!; vm_compute; reflexivity. }
  exists σ. split_and!; [done| |done..|].
  { apply (bool_decide_unpack _). by vm_compute. }
  intros label. rewrite Hnodes.
  split; intros Hin%elem_of_singleton;
    apply (f_equal (String.get 0)) in Hin; vm_compute in Hin;
    discriminate Hin.
Qed.

(** C3, amended.  Every key met as a top-level entry (in either mode), and
    every key met as a forward-mode dependency flagged missing, has a node
    declaration with its identifier on a line of the output. *)
Theorem node_declarations tree :
  ∃ σ output, collect tree = Some σ ∧ render_mermaid tree = Some output ∧
    match tree with
    | ForwardDAG items =>
        ∀ package dependencies, (package, dependencies) ∈ items →
          ∃ package_key,
            node_ids_map σ !! dist_key package = Some package_key ∧
            output_line output
              (node_decl package_key
                 (dist_project_name package +:+ escaped_newline +:+
                  dist_version package)) ∧
            ∀ dependency, dependency ∈ dependencies →
              req_is_missing dependency = true →
              ∃ dependency_key,
                node_ids_map σ !! req_key dependency = Some dependency_key ∧
                output_line output
                  (missing_node_decl dependency_key
                     (req_project_name dependency +:+ escaped_newline +:+
                      "(missing)"))
    | ReversedPackageDAG items =>
        ∀ package reverse_dependencies,
          (package, reverse_dependencies) ∈ items →
          ∃ package_key,
            node_ids_map σ !! req_key package = Some package_key ∧
            output_line output
              (node_decl package_key
                 (req_project_name package +:+ escaped_newline +:+
                  (if req_is_missing package then "(missing)"
                   else req_installed_version package)))
    end.
Proof.
  destruct tree as [items|items].
  - destruct (collect_forward items) as (σ & Hσ & Hsound & _).
    destruct (render_mermaid_lines _ _ Hσ) as (output & Hrender & Hnodes & _).
    exists σ, output. split_and!; [done..|].
    intros p ds Hentry.
    destruct (Hsound p ds Hentry) as (pk & Hpk & Hnode & Hdeps).
    exists pk. split_and!; [done|by apply Hnodes|].
    intros d Hd Hmissing.
    destruct (Hdeps d Hd) as (dk & Hdk & _ & Hdnodes).
    exists dk. split; [done|]. apply Hnodes, Hdnodes.
    unfold dependency_nodes. rewrite Hmissing. apply list_elem_of_here.
  - destruct (collect_reverse items) as (σ & Hσ & Hsound & _).
    destruct (render_mermaid_lines _ _ Hσ) as (output & Hrender & Hnodes & _).
    exists σ, output. split_and!; [done..|].
    intros p ds Hentry.
    destruct (Hsound p ds Hentry) as (pk & Hpk & Hnode & _).
    exists pk. split; [done|]. by apply Hnodes.
Qed.

(** ** A forward-mode graph with a missing dependency *)

(** The sample graph: [c] is missing and constrained; its node is styled and
    its edge is dashed, without the constraint. *)
Example sample_forward_output :
  render_mermaid (ForwardDAG sample_forward)
  = Some (header +:+
          lines [ node_decl "a" ("A" +:+ escaped_newline +:+ "1.0");
                  node_decl "b" ("B" +:+ escaped_newline +:+ "2.0");
                  missing_node_decl "c"
                    ("C" +:+ escaped_newline +:+ "(missing)") ] +:+
          lines [ solid_edge "a" "any" "b"; dashed_edge "a" "c" ]).
Proof. by vm_compute. Qed.

(** ** The label of an unconstrained edge *)

(** C6, as stated, fails in forward mode for a missing neighbour: in
    [missing_unconstrained] the dependency [b] has no version specifier, and
    the only edge collected is the dashed one, without the label [any]. *)
Lemma unconstrained_label_counterexample :
  ∃ σ, collect (ForwardDAG missing_unconstrained) = Some σ ∧
    node_ids_map σ !! "a" = Some "a" ∧
    node_ids_map σ !! "b" = Some "b" ∧
    edges σ = {[ dashed_edge "a" "b" ]} ∧
    solid_edge "a" "any" "b" ∉ edges σ.
Proof.
  eexists. split; [vm_compute; reflexivity|].
  split_and!; [vm_compute; reflexivity..|].
  apply (bool_decide_unpack _). vm_compute. exact I.
Qed.

(** C6, amended.  In reverse mode every edge, and in forward mode every
    edge to a neighbour that is not flagged missing, whose neighbour has no
    version specifier (no string, or the empty string) is on a line of the
    output with the label [any]. *)
Theorem unconstrained_edge_label tree :
  ∃ σ output, collect tree = Some σ ∧ render_mermaid tree = Some output ∧
    match tree with
    | ForwardDAG items =>
        ∀ package dependencies dependency,
          (package, dependencies) ∈ items → dependency ∈ dependencies →
          req_is_missing dependency = false →
          req_version_spec dependency = None ∨
          req_version_spec dependency = Some EmptyString →
          ∃ package_key dependency_key,
            node_ids_map σ !! dist_key package = Some package_key ∧
            node_ids_map σ !! req_key dependency = Some dependency_key ∧
            output_line output
              (solid_edge package_key "any" dependency_key)
    | ReversedPackageDAG items =>
        ∀ package reverse_dependencies reverse_dependency,
          (package, reverse_dependencies) ∈ items →
          reverse_dependency ∈ reverse_dependencies →
          req_version_spec (dist_req reverse_dependency) = None ∨
          req_version_spec (dist_req reverse_dependency)
            = Some EmptyString →
          ∃ package_key reverse_dependency_key,
            node_ids_map σ !! req_key package = Some package_key ∧
            node_ids_map σ !! dist_key reverse_dependency
              = Some reverse_dependency_key ∧
            output_line output
              (solid_edge package_key "any" reverse_dependency_key)
    end.
Proof.
  destruct tree as [items|items].
  - destruct (collect_forward items) as (σ & Hσ & Hsound & _).
    destruct (render_mermaid_lines _ _ Hσ) as (output & Hrender & _ & Hlines).
    exists σ, output. split_and!; [done..|].
    intros p ds d Hentry Hd Hmissing Hspec.
    destruct (Hsound p ds Hentry) as (pk & Hpk & _ & Hdeps).
    destruct (Hdeps d Hd) as (dk & Hdk & Hedge & _).
    exists pk, dk. split_and!; [done..|]. apply Hlines.
    unfold dependency_edge in Hedge. rewrite Hmissing in Hedge.
    by destruct Hspec as [Hspec|Hspec]; rewrite Hspec in Hedge.
  - destruct (collect_reverse items) as (σ & Hσ & Hsound & _).
    destruct (render_mermaid_lines _ _ Hσ) as (output & Hrender & _ & Hlines).
    exists σ, output. split_and!; [done..|].
    intros p ds d Hentry Hd Hspec.
    destruct (Hsound p ds Hentry) as (pk & Hpk & _ & Hdeps).
    destruct (Hdeps d Hd) as (dk & Hdk & Hedge).
    exists pk, dk. split_and!; [done..|]. apply Hlines.
    unfold reverse_dependency_edge in Hedge.
    by destruct Hspec as [Hspec|Hspec]; rewrite Hspec in Hedge.
Qed.

(** The example of the specification: [A] 1.0 depending on the installed
    [B] 2.0 without constraint. *)
Example a_needs_b_output :
  render_mermaid (ForwardDAG a_needs_b)
  = Some (header +:+
          lines [ node_decl "A" ("A" +:+ escaped_newline +:+ "1.0");
                  node_decl "B" ("B" +:+ escaped_newline +:+ "2.0") ] +:+
          lines [ solid_edge "A" "any" "B" ]).
Proof. by vm_compute. Qed.

(** ** The text of the declarations *)

Lemma node_decl_text id name second :
  node_decl id (name +:+ escaped_newline +:+ second)
  = id +:+ "[" +:+
    String "034"%char (name +:+ "\n" +:+ second +:+ String "034"%char "]").
Proof.
  unfold node_decl. do 2 f_equal.
  change (dquote +:+ ?x) with (String "034"%char x). f_equal.
  by rewrite !string_app_assoc.
Qed.

Lemma missing_node_decl_text id name :
  missing_node_decl id (name +:+ escaped_newline +:+ "(missing)")
  = id +:+ "[" +:+
    String "034"%char
      (name +:+ "\n(missing)" +:+ String "034"%char "]:::missing").
Proof.
  unfold missing_node_decl. do 2 f_equal.
  change (dquote +:+ ?x) with (String "034"%char x). f_equal.
  by rewrite !string_app_assoc.
Qed.

Lemma solid_edge_text source label target :
  solid_edge source label target
  = source +:+ " -- " +:+
    String "034"%char (label +:+ String "034"%char (" --> " +:+ target)).
Proof. reflexivity. Qed.

Lemma dashed_edge_text source target :
  dashed_edge source target = source +:+ " -.-> " +:+ target.
Proof. reflexivity. Qed.

(** ** Reverse mode *)

Lemma string_app_last_inj (s1 s2 : string) a b :
  s1 +:+ String a EmptyString = s2 +:+ String b EmptyString → a = b.
Proof.
  revert s2. induction s1 as [|c1 s1 IH]; intros [|c2 s2];
    rewrite ?string_app_cons; intros Heq.
  - by injection Heq.
  - injection Heq as _ Heq. by destruct s2.
  - injection Heq as _ Heq. by destruct s1.
  - injection Heq as _ Heq. by apply (IH s2).
Qed.

Lemma node_decl_not_styled id label s :
  node_decl id label ≠ s +:+ ":::missing".
Proof.
  unfold node_decl. intros Heq.
  change "]" with (String "]" EmptyString) in Heq.
  change ":::missing" with (":::missin" +:+ String "g" EmptyString) in Heq.
  rewrite <-!string_app_assoc in Heq.
  apply string_app_last_inj in Heq. discriminate Heq.
Qed.

(** C10.  In reverse mode the walk ends and: every entry flagged missing has
    on a line of the output its node declaration [id["name\n(missing)"]],
    whose label has [(missing)] as second line; every node collected is the
    plain declaration [id["name\nsecond"]] of an entry, and none ends with
    the tag [:::missing]; every edge collected is the labelled solid edge
    [id1 -- "label" --> id2] from an entry to a package that depends on it,
    with the specifier of that package, or [any], as label. *)
Theorem reverse_mode_rendering items :
  ∃ σ output,
    collect (ReversedPackageDAG items) = Some σ ∧
    render_mermaid (ReversedPackageDAG items) = Some output ∧
    (∀ package reverse_dependencies,
       (package, reverse_dependencies) ∈ items →
       req_is_missing package = true →
       ∃ package_key,
         node_ids_map σ !! req_key package = Some package_key ∧
         output_line output
           (package_key +:+ "[" +:+
            String "034"%char
              (req_project_name package +:+ "\n(missing)" +:+
               String "034"%char "]"))) ∧
    (∀ n, n ∈ nodes σ →
       (∃ package reverse_dependencies package_key,
          (package, reverse_dependencies) ∈ items ∧
          node_ids_map σ !! req_key package = Some package_key ∧
          n = package_key +:+ "[" +:+
              String "034"%char
                (req_project_name package +:+ "\n" +:+
                 (if req_is_missing package then "(missing)"
                  else req_installed_version package) +:+
                 String "034"%char "]")) ∧
       ∀ s, n ≠ s +:+ ":::missing") ∧
    (∀ e, e ∈ edges σ →
       ∃ package reverse_dependencies reverse_dependency
         package_key reverse_dependency_key label,
         (package, reverse_dependencies) ∈ items ∧
         reverse_dependency ∈ reverse_dependencies ∧
         node_ids_map σ !! req_key package = Some package_key ∧
         node_ids_map σ !! dist_key reverse_dependency
           = Some reverse_dependency_key ∧
         label = match req_version_spec (dist_req reverse_dependency) with
                 | Some version_spec =>
                     if decide (version_spec = EmptyString) then "any"
                     else version_spec
                 | None => "any"
                 end ∧
         e = package_key +:+ " -- " +:+
             String "034"%char
               (label +:+
                String "034"%char (" --> " +:+ reverse_dependency_key))).
Proof.
  destruct (collect_reverse items) as (σ & Hσ & Hsound & Hnodes & Hedges).
  destruct (render_mermaid_lines _ _ Hσ) as (output & Hrender & Hlines & _).
  exists σ, output. split_and!; [done..| | |].
  - intros p ds Hentry Hmissing.
    destruct (Hsound p ds Hentry) as (pk & Hpk & Hnode & _).
    exists pk. split; [done|]. apply Hlines.
    unfold reverse_package_node in Hnode. rewrite Hmissing in Hnode.
    by rewrite node_decl_text in Hnode.
  - intros n Hn. destruct (Hnodes n Hn) as (p & ds & pk & Hentry & Hpk & ->).
    split; [|intros s; apply node_decl_not_styled].
    exists p, ds, pk. split_and!; [done..|].
    unfold reverse_package_node. by rewrite node_decl_text.
  - intros e He.
    destruct (Hedges e He)
      as (p & ds & d & pk & dk & Hentry & Hd & Hpk & Hdk & ->).
    by exists p, ds, d, pk, dk, (or_any (req_version_spec (dist_req d))).
Qed.

(** A reverse-mode graph whose entry is missing. *)
Example sample_reverse_output :
  render_mermaid (ReversedPackageDAG sample_reverse)
  = Some (header +:+
          lines [ node_decl "x" ("X" +:+ escaped_newline +:+ "(missing)") ] +:+
          lines [ solid_edge "x" ">=1.0" "z"; solid_edge "x" "any" "y" ]).
Proof. by vm_compute. Qed.

(** ** The iteration order of the graph *)

(** C2, as stated, fails: [class_first] and [class_last] hold the same two
    entries, and are rendered differently. *)
Lemma render_order_counterexample :
  class_first ≡ₚ class_last ∧
  render_mermaid (ForwardDAG class_first)
  ≠ render_mermaid (ForwardDAG class_last).
Proof.
  split; [apply perm_swap|].
  intros Hrender. vm_compute in Hrender. discriminate Hrender.
Qed.

(** Looking up keys of a graph without suffix clash gives each key its
    canonical identifier. *)
Lemma assign_all_canonical (all_keys keys : list string)
    (m m' : gmap string string) :
  Forall (λ key, key ∈ _RESERVED_IDS → suffixed key 0 ∉ all_keys) all_keys →
  (∀ key, key ∈ keys → key ∈ all_keys) →
  (∀ key, key ∈ dom m → key ∈ all_keys) →
  (∀ key id, m !! key = Some id → id = canonical_id key) →
  assign_all keys m = Some m' →
  ∀ key id, m' !! key = Some id → id = canonical_id key.
Proof.
  intros Hclash. rewrite Forall_forall in Hclash. revert m.
  induction keys as [|key keys IH]; intros m Hkeys Hdom Hm; simpl.
  { by intros [= <-]. }
  destruct (mermaid_id key m) as [[id m1]|] eqn:Hid;
    [|intros Hnone; discriminate Hnone].
  assert (key ∈ all_keys) as Hkey by apply Hkeys, list_elem_of_here.
  apply IH.
  - intros key' Hkey'. by apply Hkeys, list_elem_of_further.
  - intros key'. rewrite (mermaid_id_dom _ _ _ _ Hid).
    intros [->%elem_of_singleton|Hkey']%elem_of_union; [done|by apply Hdom].
  - apply mermaid_id_inv in Hid as [[_ ->]|(Hnew & -> & Hid)]; [done|].
    intros key' id' [[<- <-]|[_ Hkey']]%lookup_insert_Some; [|by eapply Hm].
    unfold canonical_id.
    destruct Hid as [[Hres ->]|[Hres (number & -> & _ & Hbusy)]].
    + by rewrite decide_False.
    + rewrite decide_True by done. destruct number as [|number]; [done|].
      destruct (Hclash key Hkey Hres).
      apply Hdom, elem_of_dom, Hbusy. lia.
Qed.

Lemma collect_canonical tree :
  no_suffix_clash tree →
  ∃ σ, collect tree = Some σ ∧
    nodes σ = list_to_set (tree_nodes canonical_id tree) ∧
    edges σ = list_to_set (tree_edges canonical_id tree).
Proof.
  intros Hclash.
  destruct (collect_spec tree) as (σ & Hσ & Hkeys & Hnodes & Hedges).
  exists σ. split; [done|].
  assert (∀ key, key ∈ tree_keys tree →
            id_of (node_ids_map σ) key = canonical_id key) as Hcanonical.
  { intros key Hkey.
    apply (assign_all_canonical (tree_keys tree) (tree_keys tree) ∅
             (node_ids_map σ)); [done|done| | |done|].
    - intros key'. rewrite dom_empty_L. by intros ?%not_elem_of_empty.
    - intros key' id'. rewrite lookup_empty. intros Hnone. discriminate Hnone.
    - by apply (collect_lookup tree). }
  rewrite Hnodes, Hedges. destruct tree as [items|items]; simpl in *.
  - by rewrite (walk_nodes_ext _ _ _ _ _ _ _ Hcanonical),
      (walk_edges_ext _ _ _ _ _ _ Hcanonical).
  - by rewrite (walk_nodes_ext _ _ _ _ _ _ _ Hcanonical),
      (walk_edges_ext _ _ _ _ _ _ Hcanonical).
Qed.

Lemma same_entries_declarations f tree1 tree2 :
  same_entries tree1 tree2 →
  tree_keys tree1 ≡ₚ tree_keys tree2 ∧
  tree_nodes f tree1 ≡ₚ tree_nodes f tree2 ∧
  tree_edges f tree1 ≡ₚ tree_edges f tree2.
Proof.
  destruct tree1 as [items1|items1], tree2 as [items2|items2]; simpl;
    try done; intros Hperm;
    unfold walk_keys, walk_nodes, walk_edges; by rewrite Hperm.
Qed.

(** C2, amended.  For two graphs of the same mode with the same entries in
    different orders, where no key is a reserved key of the graph followed
    by [_0], both renders return, and they return the same text. *)
Theorem render_order_independent tree1 tree2 :
  same_entries tree1 tree2 → no_suffix_clash tree1 →
  ∃ output, render_mermaid tree1 = Some output ∧
            render_mermaid tree2 = Some output.
Proof.
  intros Hsame Hclash1.
  destruct (same_entries_declarations canonical_id _ _ Hsame)
    as (Hkeys & Hnodes & Hedges).
  assert (no_suffix_clash tree2) as Hclash2.
  { unfold no_suffix_clash in *. rewrite <-Hkeys.
    eapply Forall_impl; [done|]. intros key Hkey Hres. rewrite <-Hkeys.
    by apply Hkey. }
  destruct (collect_canonical tree1 Hclash1) as (σ1 & Hσ1 & Hnodes1 & Hedges1).
  destruct (collect_canonical tree2 Hclash2) as (σ2 & Hσ2 & Hnodes2 & Hedges2).
  exists (emit (elements (nodes σ1)) (elements (edges σ1))).
  unfold render_mermaid, render_mermaid_iter. rewrite Hσ1, Hσ2. simpl.
  split; [done|].
  by rewrite Hnodes1, Hnodes2, Hedges1, Hedges2, Hnodes, Hedges.
Qed.

Lemma render_order_independent_witness :
  same_entries (ForwardDAG reserved_sample)
    (ForwardDAG reserved_sample_swapped) ∧
  no_suffix_clash (ForwardDAG reserved_sample) ∧
  ∃ output,
    render_mermaid (ForwardDAG reserved_sample) = Some output ∧
    render_mermaid (ForwardDAG reserved_sample_swapped) = Some output.
Proof.
  assert (same_entries (ForwardDAG reserved_sample)
            (ForwardDAG reserved_sample_swapped)) as Hsame
    by apply perm_swap.
  assert (no_suffix_clash (ForwardDAG reserved_sample)) as Hclash
    by (apply (bool_decide_unpack _); vm_compute; exact I).
  split; [exact Hsame|]. split; [exact Hclash|].
  exact (render_order_independent _ _ Hsame Hclash).
Defined.

(** With reserved keys, the text both orders give. *)
Example reserved_sample_output :
  render_mermaid (ForwardDAG reserved_sample_swapped)
  = Some (header +:+
          lines [ node_decl "class_0" ("class" +:+ escaped_newline +:+ "1.0");
                  node_decl "end_0" ("end" +:+ escaped_newline +:+ "2.0") ] +:+
          lines [ solid_edge "class_0" "any" "end_0" ]).
Proof. by vm_compute. Qed.

(** * Further properties of [mermaid_id] *)

(** ** Memoization *)

(** X2.  Once a key has its identifier, every later call for that key, in the
    same or in a larger dictionary, returns the same identifier and leaves the
    dictionary as it is (lines 51-53). *)
Theorem mermaid_id_memoized key (m m' m'' : gmap string string) id :
  mermaid_id key m = Some (id, m') → m' ⊆ m'' →
  mermaid_id key m'' = Some (id, m'').
Proof.
  intros Hid%mermaid_id_lookup Hsub. unfold mermaid_id.
  by rewrite (lookup_weaken _ _ _ _ Hid Hsub).
Qed.

Lemma mermaid_id_memoized_witness :
  mermaid_id "class" ∅ = Some ("class_0", {[ "class" := "class_0" ]}) ∧
  ({[ "class" := "class_0" ]} : gmap string string)
    ⊆ <[ "a" := "a" ]> {[ "class" := "class_0" ]} ∧
  mermaid_id "class" (<[ "a" := "a" ]> {[ "class" := "class_0" ]})
    = Some ("class_0", <[ "a" := "a" ]> {[ "class" := "class_0" ]}).
Proof.
  assert (mermaid_id "class" ∅ = Some ("class_0", {[ "class" := "class_0" ]}))
    as Hid by (vm_compute; reflexivity).
  assert (({[ "class" := "class_0" ]} : gmap string string)
            ⊆ <[ "a" := "a" ]> {[ "class" := "class_0" ]}) as Hsub
    by (apply insert_subseteq; vm_compute; reflexivity).
  split; [exact Hid|]. split; [exact Hsub|].
  exact (mermaid_id_memoized _ _ _ _ _ Hid Hsub).
Defined.

(** ** The suffix of a reserved key *)

(** X3.  A reserved key that is looked up for the first time gets the key
    followed by [_n], where [n] is the least number such that [key_n] is not a
    key of the dictionary; the dictionary is updated with that entry alone
    (lines 59-65). *)
Theorem mermaid_id_least_suffix key (m : gmap string string) :
  key ∈ _RESERVED_IDS → m !! key = None →
  ∃ number,
    mermaid_id key m
      = Some (suffixed key number, <[key := suffixed key number]> m) ∧
    m !! suffixed key number = None ∧
    ∀ i, i < number → is_Some (m !! suffixed key i).
Proof.
  intros Hres Hnew.
  destruct (mermaid_id_total key m) as (id & m' & Hid).
  destruct (mermaid_id_inv _ _ _ _ Hid)
    as [[Hold _]|(_ & -> & [[Hplain _]|[_ (number & -> & Hfree & Hbusy)]])].
  - rewrite Hnew in Hold. discriminate Hold.
  - destruct (Hplain Hres).
  - by exists number.
Qed.

Lemma mermaid_id_least_suffix_witness :
  "class" ∈ _RESERVED_IDS ∧
  ({[ "class_0" := "class_0" ]} : gmap string string) !! "class" = None ∧
  ∃ number,
    mermaid_id "class" {[ "class_0" := "class_0" ]}
      = Some (suffixed "class" number,
              <[ "class" := suffixed "class" number ]>
                {[ "class_0" := "class_0" ]}) ∧
    ({[ "class_0" := "class_0" ]} : gmap string string)
      !! suffixed "class" number = None ∧
    ∀ i, i < number →
      is_Some (({[ "class_0" := "class_0" ]} : gmap string string)
                 !! suffixed "class" i).
Proof.
  assert ("class" ∈ _RESERVED_IDS) as Hres
    by (apply (bool_decide_unpack _); vm_compute; exact I).
  assert (({[ "class_0" := "class_0" ]} : gmap string string) !! "class"
          = None) as Hnew by (vm_compute; reflexivity).
  split; [exact Hres|]. split; [exact Hnew|].
  exact (mermaid_id_least_suffix _ _ Hres Hnew).
Defined.

(** ** The call returns *)

(** X1.  For every dictionary and every key the loop ends and the call returns
    an identifier. Afterwards the dictionary maps the key to that identifier;
    it holds the keys it held before and the key looked up, and no entry it
    held has changed. *)
Theorem mermaid_id_returns key (m : gmap string string) :
  ∃ id m', mermaid_id key m = Some (id, m') ∧
    m' !! key = Some id ∧ m ⊆ m' ∧ dom m' = {[ key ]} ∪ dom m.
Proof.
  destruct (mermaid_id_total key m) as (id & m' & Hid).
  exists id, m'. split_and!; [done|..].
  - by eapply mermaid_id_lookup.
  - by eapply mermaid_id_subseteq.
  - by eapply mermaid_id_dom.
Qed.

(** ** The shape of the identifiers *)

(** Two strings with a common extension: one starts with the other. *)
Lemma string_app_eq_prefix (s1 t1 s2 t2 : string) :
  s1 +:+ t1 = s2 +:+ t2 →
  (∃ u, s2 = s1 +:+ u ∧ t1 = u +:+ t2) ∨ (∃ u, s1 = s2 +:+ u ∧ t2 = u +:+ t1).
Proof.
  revert s2. induction s1 as [|a s1 IH]; intros s2 Heq.
  { left. by exists s2. }
  destruct s2 as [|b s2]; [right; by eexists|].
  rewrite !string_app_cons in Heq. injection Heq as -> Heq.
  destruct (IH _ Heq) as [(u & -> & ->)|(u & -> & ->)]; [left|right];
    by exists u.
Qed.

(** The candidates of two distinct reserved keys are distinct. *)
Lemma suffixed_reserved_inj key1 key2 number1 number2 :
  key1 ∈ _RESERVED_IDS → key2 ∈ _RESERVED_IDS →
  suffixed key1 number1 = suffixed key2 number2 → key1 = key2.
Proof.
  assert (∀ key1 key2 u rest1 rest2,
            key1 ∈ _RESERVED_IDS → key2 ∈ _RESERVED_IDS →
            key2 = key1 +:+ u → "_" +:+ rest1 = u +:+ "_" +:+ rest2 →
            key1 = key2) as Hcase.
  { intros r1 r2 u rest1 rest2 Hr1 Hr2 -> Heq.
    destruct u as [|c u]; [by rewrite string_app_nil_r|].
    rewrite !string_app_cons in Heq. injection Heq as <- _.
    pose proof (reserved_words_prefix_free _ _ Hr1 Hr2) as Hfree.
    change (String "_" u) with ("_" +:+ u) in Hfree.
    by rewrite <-string_app_assoc, prefix_app in Hfree. }
  intros Hres1 Hres2 Heq. unfold suffixed in Heq.
  destruct (string_app_eq_prefix _ _ _ _ Heq)
    as [(u & Hu & Hrest)|(u & Hu & Hrest)].
  - by eapply Hcase.
  - symmetry. by eapply Hcase.
Qed.

Lemma well_shaped_empty : well_shaped ∅.
Proof.
  intros key id Hkey. rewrite lookup_empty in Hkey. discriminate Hkey.
Qed.

Lemma mermaid_id_well_shaped key (m : gmap string string) id m' :
  well_shaped m → mermaid_id key m = Some (id, m') → well_shaped m'.
Proof.
  intros Hm [[_ ->]|(_ & -> & Hid)]%mermaid_id_inv; [done|].
  intros key' id' [[<- <-]|[_ Hkey']]%lookup_insert_Some; [|by apply Hm].
  destruct Hid as [[Hplain ->]|[Hres (number & -> & _)]]; [by left|right].
  split; [done|]. by exists number.
Qed.

Lemma assign_all_well_shaped keys (m m' : gmap string string) :
  well_shaped m → assign_all keys m = Some m' → well_shaped m'.
Proof.
  revert m. induction keys as [|key keys IH]; intros m Hm; simpl.
  { by intros [= <-]. }
  destruct (mermaid_id key m) as [[id m1]|] eqn:Hid;
    [|intros Hnone; discriminate Hnone].
  apply IH. by eapply mermaid_id_well_shaped.
Qed.

Lemma collect_well_shaped tree :
  ∃ σ, collect tree = Some σ ∧ well_shaped (node_ids_map σ) ∧
    dom (node_ids_map σ) = list_to_set (tree_keys tree).
Proof.
  destruct (collect_spec tree) as (σ & Hσ & Hkeys & _).
  exists σ. split_and!; [done| |].
  - eapply assign_all_well_shaped; [apply well_shaped_empty|done].
  - rewrite (assign_all_dom _ _ _ Hkeys), dom_empty_L.
    apply (right_id_L ∅ (∪)).
Qed.

(** ** The identifiers of a render *)

(** X5.  The dictionary holds exactly the keys looked up during the walk: the
    key of every entry and of every neighbour, and no other. *)
Theorem node_ids_map_keys tree :
  ∃ σ, collect tree = Some σ ∧
    ∀ key, is_Some (node_ids_map σ !! key) ↔ key ∈ tree_keys tree.
Proof.
  destruct (collect_well_shaped tree) as (σ & Hσ & _ & Hdom).
  exists σ. split; [done|]. intros key.
  by rewrite <-elem_of_dom, Hdom, elem_of_list_to_set.
Qed.

(** X6.  A key that is not a reserved word is its own identifier, whatever else
    the graph holds (lines 55-57). *)
Theorem plain_key_identifier tree :
  ∃ σ, collect tree = Some σ ∧
    ∀ key, key ∈ tree_keys tree → key ∉ _RESERVED_IDS →
      node_ids_map σ !! key = Some key.
Proof.
  destruct (collect_well_shaped tree) as (σ & Hσ & Hshape & Hdom).
  exists σ. split; [done|]. intros key Hkey Hplain.
  assert (key ∈ dom (node_ids_map σ)) as [id Hid]%elem_of_dom
    by (rewrite Hdom; by apply elem_of_list_to_set).
  by destruct (Hshape _ _ Hid) as [[_ ->]|[Hres _]].
Qed.

(** X7.  A key that is a reserved word gets the key followed by [_] and a
    decimal number (lines 59-65). *)
Theorem reserved_key_identifier tree :
  ∃ σ, collect tree = Some σ ∧
    ∀ key, key ∈ tree_keys tree → key ∈ _RESERVED_IDS →
      ∃ number, node_ids_map σ !! key = Some (suffixed key number).
Proof.
  destruct (collect_well_shaped tree) as (σ & Hσ & Hshape & Hdom).
  exists σ. split; [done|]. intros key Hkey Hres.
  assert (key ∈ dom (node_ids_map σ)) as [id Hid]%elem_of_dom
    by (rewrite Hdom; by apply elem_of_list_to_set).
  destruct (Hshape _ _ Hid) as [[Hplain _]|[_ (number & ->)]].
  - destruct (Hplain Hres).
  - by exists number.
Qed.

(** X8.  Two distinct keys share an identifier only if one of them is a
    reserved word and the other, not reserved, is that very identifier: two
    reserved keys never share one, nor do two keys that are not reserved. *)
Theorem shared_identifier_shape tree :
  ∃ σ, collect tree = Some σ ∧
    ∀ key1 key2 id, key1 ≠ key2 →
      node_ids_map σ !! key1 = Some id → node_ids_map σ !! key2 = Some id →
      ((key1 ∈ _RESERVED_IDS) ∧ (key2 ∉ _RESERVED_IDS) ∧ id = key2) ∨
      ((key2 ∈ _RESERVED_IDS) ∧ (key1 ∉ _RESERVED_IDS) ∧ id = key1).
Proof.
  destruct (collect_well_shaped tree) as (σ & Hσ & Hshape & _).
  exists σ. split; [done|]. intros key1 key2 id Hne Hid1 Hid2.
  destruct (Hshape _ _ Hid1) as [[Hplain1 ->]|[Hres1 (number1 & ->)]],
    (Hshape _ _ Hid2) as [[Hplain2 Heq]|[Hres2 (number2 & Heq)]].
  - by destruct Hne.
  - by right.
  - by left.
  - destruct Hne. by eapply suffixed_reserved_inj.
Qed.

(** X4.  The identifier issued to a reserved key differs from every identifier
    issued before it in the same render. *)
Theorem reserved_identifier_fresh keys :
  ∃ m, assign_all keys ∅ = Some m ∧
    ∀ key, key ∈ _RESERVED_IDS → m !! key = None →
      ∃ id m', mermaid_id key m = Some (id, m') ∧
        ∀ key' id', m !! key' = Some id' → id' ≠ id.
Proof.
  destruct (assign_all_total keys ∅) as [m Hm]. exists m. split; [done|].
  intros key Hres Hnew.
  destruct (mermaid_id_total key m) as (id & m' & Hid).
  exists id, m'. split; [done|].
  destruct (mermaid_id_inv _ _ _ _ Hid)
    as [[Hold _]|(_ & _ & [[Hplain _]|[_ (number & -> & Hfree & _)]])].
  { rewrite Hnew in Hold. discriminate Hold. }
  { destruct (Hplain Hres). }
  intros key' id' Hkey' ->.
  assert (well_shaped m) as Hshape
    by (eapply assign_all_well_shaped; [apply well_shaped_empty|done]).
  destruct (Hshape _ _ Hkey') as [[_ Heq]|[Hres' (number' & Heq)]].
  - rewrite <-Heq, Hfree in Hkey'. discriminate Hkey'.
  - apply suffixed_reserved_inj in Heq as ->; [|done..].
    rewrite Hnew in Hkey'. discriminate Hkey'.
Qed.

(** ** Graphs without suffix clash *)

Lemma string_length_app (s t : string) :
  String.length (s +:+ t) = String.length s + String.length t.
Proof.
  induction s as [|a s IH]; [done|].
  rewrite string_app_cons. simpl. by rewrite IH.
Qed.

Lemma suffixed_key_inj key1 key2 number :
  suffixed key1 number = suffixed key2 number → key1 = key2.
Proof.
  unfold suffixed. intros Heq.
  destruct (string_app_eq_prefix _ _ _ _ Heq)
    as [(u & -> & Hrest)|(u & -> & Hrest)];
    apply (f_equal String.length) in Hrest;
    rewrite !string_length_app in Hrest;
    destruct u; rewrite ?string_app_nil_r; try done; simpl in Hrest; lia.
Qed.

Lemma collect_canonical_ids tree :
  no_suffix_clash tree →
  ∃ σ, collect tree = Some σ ∧
    (∀ key, key ∈ tree_keys tree →
       node_ids_map σ !! key = Some (canonical_id key)) ∧
    ∀ key id, node_ids_map σ !! key = Some id →
      key ∈ tree_keys tree ∧ id = canonical_id key.
Proof.
  intros Hclash.
  destruct (collect_spec tree) as (σ & Hσ & Hkeys & _).
  exists σ. split; [done|].
  assert (∀ key id, node_ids_map σ !! key = Some id → id = canonical_id key)
    as Hcanonical.
  { apply (assign_all_canonical (tree_keys tree) (tree_keys tree) ∅);
      [done|done| | |done].
    - intros key. rewrite dom_empty_L. by intros ?%not_elem_of_empty.
    - intros key id. rewrite lookup_empty. intros Hnone. discriminate Hnone. }
  pose proof (assign_all_dom _ _ _ Hkeys) as Hdom.
  rewrite dom_empty_L, (right_id_L ∅ (∪)) in Hdom.
  split.
  - intros key Hkey.
    assert (key ∈ dom (node_ids_map σ)) as [id Hid]%elem_of_dom
      by (rewrite Hdom; by apply elem_of_list_to_set).
    by rewrite Hid, (Hcanonical _ _ Hid).
  - intros key id Hid. split; [|by apply Hcanonical].
    apply (elem_of_list_to_set (C:=gset string)).
    rewrite <-Hdom. by apply elem_of_dom.
Qed.

(** X9.  In a graph where no key is a reserved key of the graph followed by
    [_0], every reserved key gets the suffix [_0] and every other key is its
    own identifier, in whatever order the keys are met. *)
Theorem canonical_identifiers tree :
  no_suffix_clash tree →
  ∃ σ, collect tree = Some σ ∧
    ∀ key, key ∈ tree_keys tree →
      node_ids_map σ !! key
      = Some (if decide (key ∈ _RESERVED_IDS) then key +:+ "_0" else key).
Proof.
  intros Hclash.
  destruct (collect_canonical_ids tree Hclash) as (σ & Hσ & Hids & _).
  exists σ. split; [done|]. intros key Hkey. by rewrite (Hids key Hkey).
Qed.

Lemma canonical_identifiers_witness :
  no_suffix_clash (ForwardDAG reserved_sample) ∧
  ∃ σ, collect (ForwardDAG reserved_sample) = Some σ ∧
    ∀ key, key ∈ tree_keys (ForwardDAG reserved_sample) →
      node_ids_map σ !! key
      = Some (if decide (key ∈ _RESERVED_IDS) then key +:+ "_0" else key).
Proof.
  assert (no_suffix_clash (ForwardDAG reserved_sample)) as Hclash
    by (apply (bool_decide_unpack _); vm_compute; exact I).
  split; [exact Hclash|]. exact (canonical_identifiers _ Hclash).
Defined.

(** X10.  In a graph where no key is a reserved key of the graph followed by
    [_0], no two distinct keys share an identifier. *)
Theorem identifiers_injective tree :
  no_suffix_clash tree →
  ∃ σ, collect tree = Some σ ∧
    ∀ key1 key2 id,
      node_ids_map σ !! key1 = Some id → node_ids_map σ !! key2 = Some id →
      key1 = key2.
Proof.
  intros Hclash.
  destruct (collect_canonical_ids tree Hclash) as (σ & Hσ & _ & Hids).
  exists σ. split; [done|]. intros key1 key2 id Hid1 Hid2.
  destruct (Hids _ _ Hid1) as [Hkey1 ->], (Hids _ _ Hid2) as [Hkey2 Heq].
  unfold no_suffix_clash in Hclash. rewrite Forall_forall in Hclash.
  unfold canonical_id in Heq.
  destruct (decide (key1 ∈ _RESERVED_IDS)) as [Hres1|Hplain1],
    (decide (key2 ∈ _RESERVED_IDS)) as [Hres2|Hplain2].
  - by apply suffixed_key_inj in Heq.
  - destruct (Hclash key1 Hkey1 Hres1). by rewrite Heq.
  - destruct (Hclash key2 Hkey2 Hres2). by rewrite <-Heq.
  - done.
Qed.

Lemma identifiers_injective_witness :
  no_suffix_clash (ForwardDAG reserved_sample) ∧
  ∃ σ, collect (ForwardDAG reserved_sample) = Some σ ∧
    ∀ key1 key2 id,
      node_ids_map σ !! key1 = Some id → node_ids_map σ !! key2 = Some id →
      key1 = key2.
Proof.
  assert (no_suffix_clash (ForwardDAG reserved_sample)) as Hclash
    by (apply (bool_decide_unpack _); vm_compute; exact I).
  split; [exact Hclash|]. exact (identifiers_injective _ Hclash).
Defined.

(** * Further properties of [render_mermaid] *)

(** ** Edges and nodes *)

(** X11.  Every edge starts at a declared node: each edge collected is the
    edge of a neighbour of some entry of the graph, and the node declaration
    of that entry, under the source identifier of the edge, is collected too
    (the node is added before the loop over the neighbours, lines 77 and
    86). *)
Theorem edge_source_declared tree :
  ∃ σ, collect tree = Some σ ∧
    match tree with
    | ForwardDAG items =>
        ∀ e, e ∈ edges σ →
          ∃ package dependencies dependency package_key dependency_key,
            (package, dependencies) ∈ items ∧ dependency ∈ dependencies ∧
            node_ids_map σ !! dist_key package = Some package_key ∧
            node_ids_map σ !! req_key dependency = Some dependency_key ∧
            e = (if req_is_missing dependency
                 then package_key +:+ " -.-> " +:+ dependency_key
                 else package_key +:+ " -- " +:+
                      String "034"%char
                        (or_any (req_version_spec dependency) +:+
                         String "034"%char (" --> " +:+ dependency_key))) ∧
            package_key +:+ "[" +:+
            String "034"%char
              (dist_project_name package +:+ "\n" +:+
               dist_version package +:+ String "034"%char "]") ∈ nodes σ
    | ReversedPackageDAG items =>
        ∀ e, e ∈ edges σ →
          ∃ package reverse_dependencies reverse_dependency
            package_key reverse_dependency_key,
            (package, reverse_dependencies) ∈ items ∧
            reverse_dependency ∈ reverse_dependencies ∧
            node_ids_map σ !! req_key package = Some package_key ∧
            node_ids_map σ !! dist_key reverse_dependency
              = Some reverse_dependency_key ∧
            e = package_key +:+ " -- " +:+
                String "034"%char
                  (or_any (req_version_spec (dist_req reverse_dependency)) +:+
                   String "034"%char (" --> " +:+ reverse_dependency_key)) ∧
            package_key +:+ "[" +:+
            String "034"%char
              (req_project_name package +:+ "\n" +:+
               (if req_is_missing package then "(missing)"
                else req_installed_version package) +:+
               String "034"%char "]") ∈ nodes σ
    end.
Proof.
  destruct tree as [items|items].
  - destruct (collect_forward items) as (σ & Hσ & Hsound & _ & Hedges).
    exists σ. split; [done|]. intros e He.
    destruct (Hedges e He)
      as (p & ds & d & pk & dk & Hentry & Hd & Hpk & Hdk & ->).
    destruct (Hsound p ds Hentry) as (pk' & Hpk' & Hnode & _).
    rewrite Hpk in Hpk'. injection Hpk' as <-.
    exists p, ds, d, pk, dk. split_and!; [done..|].
    unfold package_node in Hnode. by rewrite node_decl_text in Hnode.
  - destruct (collect_reverse items) as (σ & Hσ & Hsound & _ & Hedges).
    exists σ. split; [done|]. intros e He.
    destruct (Hedges e He)
      as (p & ds & d & pk & dk & Hentry & Hd & Hpk & Hdk & ->).
    destruct (Hsound p ds Hentry) as (pk' & Hpk' & Hnode & _).
    rewrite Hpk in Hpk'. injection Hpk' as <-.
    exists p, ds, d, pk, dk. split_and!; [done..|].
    unfold reverse_package_node in Hnode.
    by rewrite node_decl_text in Hnode.
Qed.

(** ** Edge labels *)

(** X12.  A version specifier that is a non-empty string is the label of the
    edge, unchanged: in reverse mode for every edge, in forward mode for every
    edge to a neighbour that is not flagged missing (lines 79-81, 88, 95). *)
Theorem constrained_edge_label tree :
  ∃ σ output, collect tree = Some σ ∧ render_mermaid tree = Some output ∧
    match tree with
    | ForwardDAG items =>
        ∀ package dependencies dependency version_spec,
          (package, dependencies) ∈ items → dependency ∈ dependencies →
          req_is_missing dependency = false →
          req_version_spec dependency = Some version_spec →
          version_spec ≠ EmptyString →
          ∃ package_key dependency_key,
            node_ids_map σ !! dist_key package = Some package_key ∧
            node_ids_map σ !! req_key dependency = Some dependency_key ∧
            output_line output
              (solid_edge package_key version_spec dependency_key)
    | ReversedPackageDAG items =>
        ∀ package reverse_dependencies reverse_dependency version_spec,
          (package, reverse_dependencies) ∈ items →
          reverse_dependency ∈ reverse_dependencies →
          req_version_spec (dist_req reverse_dependency)
            = Some version_spec →
          version_spec ≠ EmptyString →
          ∃ package_key reverse_dependency_key,
            node_ids_map σ !! req_key package = Some package_key ∧
            node_ids_map σ !! dist_key reverse_dependency
              = Some reverse_dependency_key ∧
            output_line output
              (solid_edge package_key version_spec reverse_dependency_key)
    end.
Proof.
  destruct tree as [items|items].
  - destruct (collect_forward items) as (σ & Hσ & Hsound & _).
    destruct (render_mermaid_lines _ _ Hσ) as (output & Hrender & _ & Hlines).
    exists σ, output. split_and!; [done..|].
    intros p ds d spec Hentry Hd Hmissing Hspec Hne.
    destruct (Hsound p ds Hentry) as (pk & Hpk & _ & Hdeps).
    destruct (Hdeps d Hd) as (dk & Hdk & Hedge & _).
    exists pk, dk. split_and!; [done..|]. apply Hlines.
    unfold dependency_edge in Hedge. rewrite Hmissing, Hspec in Hedge.
    simpl in Hedge. by rewrite decide_False in Hedge.
  - destruct (collect_reverse items) as (σ & Hσ & Hsound & _).
    destruct (render_mermaid_lines _ _ Hσ) as (output & Hrender & _ & Hlines).
    exists σ, output. split_and!; [done..|].
    intros p ds d spec Hentry Hd Hspec Hne.
    destruct (Hsound p ds Hentry) as (pk & Hpk & _ & Hdeps).
    destruct (Hdeps d Hd) as (dk & Hdk & Hedge).
    exists pk, dk. split_and!; [done..|]. apply Hlines.
    unfold reverse_dependency_edge in Hedge. rewrite Hspec in Hedge.
    simpl in Hedge. by rewrite decide_False in Hedge.
Qed.

(** ** Graphs with more entries *)

Lemma assign_all_split keys1 keys2 (m m2 : gmap string string) :
  assign_all (keys1 ++ keys2) m = Some m2 →
  ∃ m1, assign_all keys1 m = Some m1 ∧ assign_all keys2 m1 = Some m2.
Proof.
  rewrite assign_all_app. destruct (assign_all keys1 m) as [m1|]; [|done].
  intros Hrest. by exists m1.
Qed.

Section walk_append.
Context {P D : Type}.
Variable pkey : P → string.
Variable pnode : P → string → string.
Variable dkey : D → string.
Variable dnode : D → string → list string.
Variable dedge : D → string → string → string.

Lemma walk_append_declarations items more (m1 m2 : gmap string string) :
  assign_all (walk_keys pkey dkey items) ∅ = Some m1 →
  assign_all (walk_keys pkey dkey (items ++ more)) ∅ = Some m2 →
  m1 ⊆ m2 ∧
  walk_nodes pkey pnode dkey dnode (id_of m2) (items ++ more)
  = walk_nodes pkey pnode dkey dnode (id_of m1) items
    ++ walk_nodes pkey pnode dkey dnode (id_of m2) more ∧
  walk_edges pkey dkey dedge (id_of m2) (items ++ more)
  = walk_edges pkey dkey dedge (id_of m1) items
    ++ walk_edges pkey dkey dedge (id_of m2) more.
Proof.
  intros Hm1 Hm2. unfold walk_keys in Hm2. rewrite bind_app in Hm2.
  apply assign_all_split in Hm2 as (m1' & Hm1' & Hm2).
  unfold walk_keys in Hm1. rewrite Hm1 in Hm1'. injection Hm1' as <-.
  pose proof (assign_all_subseteq _ _ _ Hm2) as Hsub.
  assert (∀ key, key ∈ walk_keys pkey dkey items →
            id_of m2 key = id_of m1 key) as Hstable.
  { intros key Hkey. apply id_of_weaken; [done|].
    rewrite (assign_all_dom _ _ _ Hm1).
    by apply elem_of_union_l, elem_of_list_to_set. }
  split_and!; [done| |].
  - unfold walk_nodes at 1. rewrite bind_app. f_equal.
    by apply walk_nodes_ext.
  - unfold walk_edges at 1. rewrite bind_app. f_equal.
    by apply walk_edges_ext.
Qed.

End walk_append.

Lemma collect_append tree tree' :
  (∃ items more,
     (tree = ForwardDAG items ∧ tree' = ForwardDAG (items ++ more))) ∨
  (∃ items more,
     (tree = ReversedPackageDAG items ∧
      tree' = ReversedPackageDAG (items ++ more))) →
  ∃ σ σ', collect tree = Some σ ∧ collect tree' = Some σ' ∧
    node_ids_map σ ⊆ node_ids_map σ' ∧
    nodes σ ⊆ nodes σ' ∧ edges σ ⊆ edges σ'.
Proof.
  intros Htrees.
  destruct (collect_spec tree) as (σ & Hσ & Hkeys & Hnodes & Hedges).
  destruct (collect_spec tree') as (σ' & Hσ' & Hkeys' & Hnodes' & Hedges').
  exists σ, σ'. split; [done|]. split; [done|].
  rewrite Hnodes, Hedges, Hnodes', Hedges'.
  destruct Htrees as [(items & more & -> & ->)|(items & more & -> & ->)];
    simpl in *.
  - destruct (walk_append_declarations dist_key package_node req_key
                dependency_nodes dependency_edge items more _ _ Hkeys Hkeys')
      as (Hsub & -> & ->).
    split; [done|]. rewrite !list_to_set_app_L.
    split; apply union_subseteq_l.
  - destruct (walk_append_declarations req_key reverse_package_node dist_key
                (λ _ _, []) reverse_dependency_edge items more _ _
                Hkeys Hkeys')
      as (Hsub & -> & ->).
    split; [done|]. rewrite !list_to_set_app_L.
    split; apply union_subseteq_l.
Qed.

(** X13.  Entries that come after the entries of a graph do not disturb what
    was rendered for it: the keys keep their identifiers, and every node and
    edge declaration of the graph is a line of the output of the longer graph. *)
Theorem entries_appended :
  (∀ items more,
     ∃ σ σ' output',
       collect (ForwardDAG items) = Some σ ∧
       collect (ForwardDAG (items ++ more)) = Some σ' ∧
       render_mermaid (ForwardDAG (items ++ more)) = Some output' ∧
       node_ids_map σ ⊆ node_ids_map σ' ∧
       ∀ decl, decl ∈ nodes σ ∨ decl ∈ edges σ → output_line output' decl) ∧
  (∀ items more,
     ∃ σ σ' output',
       collect (ReversedPackageDAG items) = Some σ ∧
       collect (ReversedPackageDAG (items ++ more)) = Some σ' ∧
       render_mermaid (ReversedPackageDAG (items ++ more)) = Some output' ∧
       node_ids_map σ ⊆ node_ids_map σ' ∧
       ∀ decl, decl ∈ nodes σ ∨ decl ∈ edges σ → output_line output' decl).
Proof.
  split; intros items more.
  - destruct (collect_append (ForwardDAG items) (ForwardDAG (items ++ more)))
      as (σ & σ' & Hσ & Hσ' & Hids & Hnodes & Hedges).
    { left. by exists items, more. }
    destruct (render_mermaid_lines _ _ Hσ')
      as (output' & Hrender & Hnode_lines & Hedge_lines).
    exists σ, σ', output'. split_and!; [done..|].
    intros decl [Hdecl|Hdecl].
    + by apply Hnode_lines, Hnodes.
    + by apply Hedge_lines, Hedges.
  - destruct (collect_append (ReversedPackageDAG items)
                (ReversedPackageDAG (items ++ more)))
      as (σ & σ' & Hσ & Hσ' & Hids & Hnodes & Hedges).
    { right. by exists items, more. }
    destruct (render_mermaid_lines _ _ Hσ')
      as (output' & Hrender & Hnode_lines & Hedge_lines).
    exists σ, σ', output'. split_and!; [done..|].
    intros decl [Hdecl|Hdecl].
    + by apply Hnode_lines, Hnodes.
    + by apply Hedge_lines, Hedges.
Qed.

(** ** The order of the neighbours *)

Section walk_neighbors.
Context {P D : Type}.
Variable pkey : P → string.
Variable pnode : P → string → string.
Variable dkey : D → string.
Variable dnode : D → string → list string.
Variable dedge : D → string → string → string.

Lemma walk_neighbors_Permutation f (items1 items2 : list (P * list D)) :
  Forall2 (λ entry1 entry2, entry1.1 = entry2.1 ∧ entry1.2 ≡ₚ entry2.2)
    items1 items2 →
  walk_keys pkey dkey items1 ≡ₚ walk_keys pkey dkey items2 ∧
  walk_nodes pkey pnode dkey dnode f items1
    ≡ₚ walk_nodes pkey pnode dkey dnode f items2 ∧
  walk_edges pkey dkey dedge f items1 ≡ₚ walk_edges pkey dkey dedge f items2.
Proof.
  unfold walk_keys, walk_nodes, walk_edges.
  induction 1 as [|[p1 ds1] [p2 ds2] items1 items2 [Hp Hds] _ IH];
    [done|].
  simpl in Hp, Hds. subst p2. destruct IH as (IHkeys & IHnodes & IHedges).
  rewrite !bind_cons.
  unfold entry_keys, entry_nodes, entry_edges. cbn [fst snd].
  split_and!.
  - by rewrite Hds, IHkeys.
  - by rewrite Hds, IHnodes.
  - by rewrite Hds, IHedges.
Qed.

End walk_neighbors.

Lemma same_neighbors_declarations f tree1 tree2 :
  same_neighbors tree1 tree2 →
  tree_keys tree1 ≡ₚ tree_keys tree2 ∧
  tree_nodes f tree1 ≡ₚ tree_nodes f tree2 ∧
  tree_edges f tree1 ≡ₚ tree_edges f tree2.
Proof.
  destruct tree1 as [items1|items1], tree2 as [items2|items2]; simpl;
    try done; apply walk_neighbors_Permutation.
Qed.

(** X14.  The order of the neighbours of an entry does not show in the output:
    two graphs of the same mode with the same entries in the same order, whose
    neighbour lists hold the same neighbours in different orders, are rendered
    alike, provided no key is a reserved key of the graph followed by [_0]. *)
Theorem neighbor_order_independent tree1 tree2 :
  same_neighbors tree1 tree2 → no_suffix_clash tree1 →
  ∃ output, render_mermaid tree1 = Some output ∧
            render_mermaid tree2 = Some output.
Proof.
  intros Hsame Hclash1.
  destruct (same_neighbors_declarations canonical_id _ _ Hsame)
    as (Hkeys & Hnodes & Hedges).
  assert (no_suffix_clash tree2) as Hclash2.
  { unfold no_suffix_clash in *. rewrite <-Hkeys.
    eapply Forall_impl; [done|]. intros key Hkey Hres. rewrite <-Hkeys.
    by apply Hkey. }
  destruct (collect_canonical tree1 Hclash1) as (σ1 & Hσ1 & Hnodes1 & Hedges1).
  destruct (collect_canonical tree2 Hclash2) as (σ2 & Hσ2 & Hnodes2 & Hedges2).
  exists (emit (elements (nodes σ1)) (elements (edges σ1))).
  unfold render_mermaid, render_mermaid_iter. rewrite Hσ1, Hσ2. simpl.
  split; [done|].
  by rewrite Hnodes1, Hnodes2, Hedges1, Hedges2, Hnodes, Hedges.
Qed.

Lemma neighbor_order_independent_witness :
  same_neighbors (ForwardDAG two_neighbors)
    (ForwardDAG two_neighbors_swapped) ∧
  no_suffix_clash (ForwardDAG two_neighbors) ∧
  ∃ output,
    render_mermaid (ForwardDAG two_neighbors) = Some output ∧
    render_mermaid (ForwardDAG two_neighbors_swapped) = Some output.
Proof.
  assert (same_neighbors (ForwardDAG two_neighbors)
            (ForwardDAG two_neighbors_swapped)) as Hsame.
  { constructor; [split; [reflexivity|apply perm_swap]|].
    constructor; [by split|]. constructor. }
  assert (no_suffix_clash (ForwardDAG two_neighbors)) as Hclash
    by (apply (bool_decide_unpack _); vm_compute; exact I).
  split; [exact Hsame|]. split; [exact Hclash|].
  exact (neighbor_order_independent _ _ Hsame Hclash).
Defined.

(** * Missing dependencies and labelled edges *)

(** ** Strings without a double quote *)

Lemma quote_free_nil : quote_free EmptyString.
Proof. intros [|a s1] s2 Heq; discriminate Heq. Qed.

Lemma quote_free_cons a s :
  a ≠ "034"%char → quote_free s → quote_free (String a s).
Proof.
  intros Ha Hs [|b s1] s2 Heq.
  - injection Heq as -> _. by destruct Ha.
  - rewrite string_app_cons in Heq. injection Heq as _ Heq. by eapply Hs.
Qed.

Lemma quote_free_app s t :
  quote_free s → quote_free t → quote_free (s +:+ t).
Proof.
  intros Hs Ht s1 s2 Heq.
  destruct (string_app_eq_prefix _ _ _ _ Heq)
    as [(u & -> & Ht')|(u & -> & Hu)].
  - by eapply Ht.
  - destruct u as [|b u].
    + exact (Ht EmptyString s2 (eq_sym Hu)).
    + rewrite string_app_cons in Hu. injection Hu as <- _. by eapply Hs.
Qed.

(** A literal without a double quote. *)
Ltac quote_free_literal :=
  repeat (apply quote_free_cons; [discriminate|]); apply quote_free_nil.

Lemma quote_free_pretty_N_go x s :
  quote_free s → quote_free (pretty_N_go x s).
Proof.
  revert s. induction (N.lt_wf_0 x) as [x _ IH]; intros s Hs.
  destruct (decide (x = 0)%N) as [->|Hx]; [by rewrite pretty_N_go_0|].
  rewrite pretty_N_go_step by lia. apply IH.
  - apply N.div_lt; lia.
  - apply quote_free_cons; [|done].
    unfold pretty_N_char. repeat case_match; discriminate.
Qed.

Lemma quote_free_pretty (number : nat) : quote_free (pretty number).
Proof.
  unfold pretty, pretty_nat, pretty, pretty_N. case_decide.
  - quote_free_literal.
  - apply quote_free_pretty_N_go, quote_free_nil.
Qed.

Lemma quote_free_suffixed key number :
  quote_free key → quote_free (suffixed key number).
Proof.
  intros Hkey. unfold suffixed.
  apply quote_free_app; [done|]. apply quote_free_app; [quote_free_literal|].
  apply quote_free_pretty.
Qed.

(** The text before the first double quote and the text after it. *)
Lemma first_quote_inj s1 t1 s2 t2 :
  quote_free s1 → quote_free s2 →
  s1 +:+ String "034"%char t1 = s2 +:+ String "034"%char t2 →
  s1 = s2 ∧ t1 = t2.
Proof.
  assert (∀ a ta b tb u,
            quote_free b → b = a +:+ u →
            String "034"%char ta = u +:+ String "034"%char tb →
            a = b ∧ ta = tb) as Hcase.
  { intros a ta b tb [|c u] Hb -> Hu.
    - rewrite string_app_nil_r. by injection Hu.
    - rewrite string_app_cons in Hu. injection Hu as <- _.
      by destruct (Hb a u). }
  intros Hs1 Hs2 Heq.
  destruct (string_app_eq_prefix _ _ _ _ Heq)
    as [(u & Hu & Hrest)|(u & Hu & Hrest)].
  - by eapply Hcase.
  - destruct (Hcase s2 t2 s1 t1 u Hs1 Hu Hrest) as [-> ->]. done.
Qed.

Lemma string_app_cancel_r (s1 s2 t : string) :
  s1 +:+ t = s2 +:+ t → s1 = s2.
Proof.
  intros Heq.
  destruct (string_app_eq_prefix _ _ _ _ Heq)
    as [(u & -> & Hrest)|(u & -> & Hrest)];
    apply (f_equal String.length) in Hrest;
    rewrite string_length_app in Hrest;
    destruct u; rewrite ?string_app_nil_r; try done; simpl in Hrest; lia.
Qed.

(** The text before the last double quote and the text after it. *)
Lemma last_quote_inj s1 t1 s2 t2 :
  quote_free t1 → quote_free t2 →
  s1 +:+ String "034"%char t1 = s2 +:+ String "034"%char t2 →
  s1 = s2 ∧ t1 = t2.
Proof.
  assert (∀ a ta b tb u,
            quote_free ta → b = a +:+ u →
            String "034"%char ta = u +:+ String "034"%char tb →
            a = b ∧ ta = tb) as Hcase.
  { intros a ta b tb [|c u] Hta -> Hu.
    - rewrite string_app_nil_r. by injection Hu.
    - rewrite string_app_cons in Hu. injection Hu as _ Hu.
      by destruct (Hta u tb). }
  intros Ht1 Ht2 Heq.
  destruct (string_app_eq_prefix _ _ _ _ Heq)
    as [(u & Hu & Hrest)|(u & Hu & Hrest)].
  - by eapply Hcase.
  - destruct (Hcase s2 t2 s1 t1 u Ht2 Hu Hrest) as [-> ->]. done.
Qed.

(** A labelled edge is read in one way when its two identifiers hold no
    double quote. *)
Lemma solid_edge_inj source1 label1 target1 source2 label2 target2 :
  quote_free source1 → quote_free source2 →
  quote_free target1 → quote_free target2 →
  solid_edge source1 label1 target1 = solid_edge source2 label2 target2 →
  source1 = source2 ∧ label1 = label2 ∧ target1 = target2.
Proof.
  intros Hs1 Hs2 Ht1 Ht2. rewrite !solid_edge_text.
  rewrite <-!(string_app_assoc _ " -- "). intros Heq.
  apply first_quote_inj in Heq as [Hsource Heq];
    [|apply quote_free_app; [done|quote_free_literal]..].
  apply string_app_cancel_r in Hsource.
  apply last_quote_inj in Heq as [Hlabel Htarget];
    [|apply quote_free_app; [quote_free_literal|done]..].
  by apply (inj (String.app " --> ")) in Htarget.
Qed.

Lemma dashed_edge_not_solid source1 target1 source2 label2 target2 :
  quote_free source1 → quote_free target1 →
  dashed_edge source1 target1 ≠ solid_edge source2 label2 target2.
Proof.
  intros Hs1 Ht1. rewrite dashed_edge_text, solid_edge_text.
  rewrite <-(string_app_assoc _ " -- ").
  apply quote_free_app; [done|].
  apply quote_free_app; [quote_free_literal|done].
Qed.

Lemma well_shaped_quote_free (m : gmap string string) key id :
  well_shaped m → m !! key = Some id → quote_free key → quote_free id.
Proof.
  intros Hm Hid Hkey.
  destruct (Hm _ _ Hid) as [[_ ->]|[_ (number & ->)]]; [done|].
  by apply quote_free_suffixed.
Qed.

(** ** Missing dependencies in forward mode *)

(** C5, as stated, fails: an edge from [P] to a missing [d] can carry a
    version label.  In [repeated_neighbor] the key [d] is listed twice under
    [p], flagged missing once and not the other time; in
    [collided_neighbor] the missing dependency [class_0] shares its
    identifier with the dependency [class], which is not missing.  In both
    graphs the dashed edge and a labelled edge between the same two
    identifiers are collected. *)
Lemma missing_dependency_counterexample :
  (∃ σ, collect (ForwardDAG repeated_neighbor) = Some σ ∧
     node_ids_map σ !! "p" = Some "p" ∧ node_ids_map σ !! "d" = Some "d" ∧
     "p -.-> d" ∈ edges σ ∧
     "p -- " +:+ String "034"%char
       (">=1" +:+ String "034"%char " --> d") ∈ edges σ) ∧
  (∃ σ, collect (ForwardDAG collided_neighbor) = Some σ ∧
     node_ids_map σ !! "p" = Some "p" ∧
     node_ids_map σ !! "class_0" = Some "class_0" ∧
     "p -.-> class_0" ∈ edges σ ∧
     "p -- " +:+ String "034"%char
       (">=1" +:+ String "034"%char " --> class_0") ∈ edges σ).
Proof.
  split; (eexists; split; [vm_compute; reflexivity|]);
    (split_and!; [vm_compute; reflexivity..| |]);
    apply (bool_decide_unpack _); vm_compute; exact I.
Qed.

(** C5, amended.  In forward mode the walk ends and, for every dependency
    [d] of an entry [P] with [d] flagged missing, whatever the version
    specifier of [d]: the output has the line [d_id["name\n(missing)"]]
    tagged [:::missing] and the line [P_id -.-> d_id]; and, when no key of
    the graph holds a double quote, a labelled edge
    [P_id -- "label" --> d_id] is collected only if some dependency that is
    not flagged missing has the identifier [d_id], under an entry that has
    the identifier [P_id], and then [label] is the specifier of that
    dependency, or [any].  In any graph, every edge collected is the edge
    of some dependency of some entry: [P_id -.-> d_id] if that dependency
    is flagged missing, [P_id -- "label" --> d_id] otherwise. *)
Theorem missing_dependency_rendering items :
  ∃ σ output,
    collect (ForwardDAG items) = Some σ ∧
    render_mermaid (ForwardDAG items) = Some output ∧
    (∀ package dependencies dependency,
      (package, dependencies) ∈ items → dependency ∈ dependencies →
      req_is_missing dependency = true →
      ∃ package_key dependency_key,
        node_ids_map σ !! dist_key package = Some package_key ∧
        node_ids_map σ !! req_key dependency = Some dependency_key ∧
        output_line output
          (dependency_key +:+ "[" +:+
           String "034"%char
             (req_project_name dependency +:+ "\n(missing)" +:+
              String "034"%char "]:::missing")) ∧
        output_line output (package_key +:+ " -.-> " +:+ dependency_key) ∧
        (Forall quote_free (tree_keys (ForwardDAG items)) →
         ∀ label,
           package_key +:+ " -- " +:+
           String "034"%char
             (label +:+ String "034"%char (" --> " +:+ dependency_key))
           ∈ edges σ →
           ∃ package' dependencies' dependency',
             (package', dependencies') ∈ items ∧
             dependency' ∈ dependencies' ∧
             req_is_missing dependency' = false ∧
             node_ids_map σ !! dist_key package' = Some package_key ∧
             node_ids_map σ !! req_key dependency' = Some dependency_key ∧
             label = match req_version_spec dependency' with
                     | Some version_spec =>
                         if decide (version_spec = EmptyString) then "any"
                         else version_spec
                     | None => "any"
                     end)) ∧
    ∀ e, e ∈ edges σ →
      ∃ package dependencies dependency package_key dependency_key,
        (package, dependencies) ∈ items ∧ dependency ∈ dependencies ∧
        node_ids_map σ !! dist_key package = Some package_key ∧
        node_ids_map σ !! req_key dependency = Some dependency_key ∧
        e = if req_is_missing dependency
            then package_key +:+ " -.-> " +:+ dependency_key
            else package_key +:+ " -- " +:+
                 String "034"%char
                   (or_any (req_version_spec dependency) +:+
                    String "034"%char (" --> " +:+ dependency_key)).
Proof.
  destruct (collect_forward items) as (σ & Hσ & Hsound & _ & Hedges).
  destruct (render_mermaid_lines _ _ Hσ)
    as (output & Hrender & Hnode_lines & Hedge_lines).
  assert (well_shaped (node_ids_map σ) ∧
          ∀ key, is_Some (node_ids_map σ !! key) →
                 key ∈ tree_keys (ForwardDAG items)) as [Hshape Hdom].
  { destruct (collect_well_shaped (ForwardDAG items)) as (σ' & Hσ' & ? & Hdom).
    rewrite Hσ in Hσ'. injection Hσ' as <-. split; [done|].
    intros key Hkey%elem_of_dom. rewrite Hdom in Hkey.
    by apply elem_of_list_to_set in Hkey. }
  exists σ, output. split_and!; [done..| |].
  2:{ intros e He.
      destruct (Hedges e He)
        as (p & ds & d & pk & dk & Hentry & Hd & Hpk & Hdk & ->).
      by exists p, ds, d, pk, dk. }
  intros p ds d Hentry Hd Hmissing.
  destruct (Hsound p ds Hentry) as (pk & Hpk & _ & Hdeps).
  destruct (Hdeps d Hd) as (dk & Hdk & Hedge & Hdnodes).
  exists pk, dk. split_and!; [done..| | |].
  - rewrite <-missing_node_decl_text. apply Hnode_lines, Hdnodes.
    unfold dependency_nodes. rewrite Hmissing. apply list_elem_of_here.
  - rewrite <-dashed_edge_text. apply Hedge_lines.
    unfold dependency_edge in Hedge. by rewrite Hmissing in Hedge.
  - intros Hfree label Hlabel. rewrite Forall_forall in Hfree.
    assert (∀ key id, node_ids_map σ !! key = Some id → quote_free id)
      as Hids.
    { intros key id Hid. eapply well_shaped_quote_free; [done..|].
      apply Hfree, Hdom. by eexists. }
    rewrite <-solid_edge_text in Hlabel.
    destruct (Hedges _ Hlabel)
      as (p' & ds' & d' & pk' & dk' & Hentry' & Hd' & Hpk' & Hdk' & Heq).
    unfold dependency_edge in Heq.
    destruct (req_is_missing d') eqn:Hmissing'.
    + symmetry in Heq. by apply dashed_edge_not_solid in Heq; eauto.
    + apply solid_edge_inj in Heq as (-> & -> & ->); eauto.
      by exists p', ds', d'.
Qed.

(** The keys of [repeated_neighbor] hold no double quote: its labelled edge
    from [p] to [d] comes from the second dependency, which is not flagged
    missing. *)
Example repeated_neighbor_quote_free :
  Forall quote_free (tree_keys (ForwardDAG repeated_neighbor)).
Proof. repeat (apply Forall_cons; split; [quote_free_literal|]). done. Qed.
